(** * ENCO: the companion derivation and the optimizer's contracts

    The repository ships two notebooks.  [convergence_guarantees_ENCO.ipynb]
    computes, for the chain X1 -> X2 -> X3, the expected log-likelihood
    differences that decide whether ENCO converges to the true graph; it is
    plain NumPy and is embedded here cell by cell.  [walkthrough.ipynb] only
    calls into the packages [causal_graphs] and [causal_discovery]; the parts
    of those packages that the properties below talk about are modelled from
    the specification and are marked as such.

    NumPy arrays hold binary64 numbers.  The cells are embedded over exact
    real numbers ([Np], [Derivation], [Chain]): every quantity of the
    derivation notebook is a rational combination of logarithms of
    rationals, and the theorems about values bound the exact value to
    within 1e-15, which the rounding of the individual operations does not
    exceed at the notebook's arrays.  The function [expect_diff] is embedded
    over binary64 numbers as well ([Binary64]), for the statements that
    depend on how binary64 rounds, overflows and treats what is not a
    number. *)

From Stdlib Require Import Reals Lra Lia ZArith List Bool.
From stdpp Require Import gmap strings.
From Stdlib Require Floats.
Import ListNotations.

(** ** Python exceptions as an error monad *)

Inductive exn : Type :=
| ValueError
| IndexError
| AxisError
| ConfigurationError.

Inductive res (A : Type) : Type :=
| Ok (a : A)
| Raise (e : exn).

Arguments Ok {A} a.
Arguments Raise {A} e.

Definition bind {A B : Type} (x : res A) (k : A -> res B) : res B :=
  match x with
  | Ok a => k a
  | Raise e => Raise e
  end.

Notation "'do' x <- c ; k" := (bind c (fun x => k))
  (at level 10, x name, c at level 100, k at level 200).

(** ** NumPy arrays *)

Module Np.

Open Scope R_scope.

(** An [ndarray] is its shape and its element function; an index is the list
    of the coordinates, first axis first. *)
Record ndarray : Type := NdArray { shape : list nat; item : list nat -> R }.

Definition ndim (a : ndarray) : nat := length (shape a).

(** [np.array([x0, x1, ...])] *)
Definition array1 (l : list R) : ndarray :=
  NdArray [length l]
    (fun idx => match idx with [i] => nth i l 0 | _ => 0 end).

(** [np.array([[x00, x01, ...], [x10, ...], ...])] with rows of one length;
    [np.array([])] has the one axis of length 0. *)
Definition array2 (l : list (list R)) : ndarray :=
  match l with
  | [] => NdArray [0%nat] (fun _ => 0)
  | r :: _ =>
      NdArray [length l; length r]
        (fun idx => match idx with [i; j] => nth j (nth i l []) 0 | _ => 0 end)
  end.

(** Basic indexing as the notebook uses it: every entry of the index tuple is
    a full slice [:] or [None] (a new axis of length one).  Axes past the
    index tuple are kept; more slices than axes is an [IndexError]. *)
Inductive ix : Type := Colon | NewAxis.

Fixpoint getitem_shape (spec : list ix) (s : list nat) : res (list nat) :=
  match spec with
  | [] => Ok s
  | Colon :: spec' =>
      match s with
      | [] => Raise IndexError
      | d :: s' => do r <- getitem_shape spec' s'; Ok (d :: r)
      end
  | NewAxis :: spec' => do r <- getitem_shape spec' s; Ok (1%nat :: r)
  end.

Fixpoint getitem_index (spec : list ix) (idx : list nat) : list nat :=
  match spec, idx with
  | [], _ => idx
  | _, [] => []
  | Colon :: spec', i :: idx' => i :: getitem_index spec' idx'
  | NewAxis :: spec', _ :: idx' => getitem_index spec' idx'
  end.

Definition getitem (spec : list ix) (a : ndarray) : res ndarray :=
  do s <- getitem_shape spec (shape a);
  Ok (NdArray s (fun idx => item a (getitem_index spec idx))).

(** Broadcasting.  The shorter shape is padded with leading ones; two
    lengths along one axis are compatible when they are equal or one of them
    is one; anything else is a [ValueError]. *)
Definition pad (r : nat) (s : list nat) : list nat :=
  repeat 1%nat (r - length s) ++ s.

Definition bc_dim (a b : nat) : res nat :=
  if (a =? b)%nat then Ok a
  else if (a =? 1)%nat then Ok b
  else if (b =? 1)%nat then Ok a
  else Raise ValueError.

Fixpoint bc_dims (s t : list nat) : res (list nat) :=
  match s, t with
  | [], [] => Ok []
  | a :: s', b :: t' =>
      do d <- bc_dim a b; do r <- bc_dims s' t'; Ok (d :: r)
  | _, _ => Raise ValueError
  end.

Definition broadcast_shapes (s t : list nat) : res (list nat) :=
  let r := Nat.max (length s) (length t) in
  bc_dims (pad r s) (pad r t).

(** The element of an operand of shape [s] that the result's element [idx]
    reads: leading result axes the operand lacks are dropped, and an axis of
    length one always reads position 0. *)
Fixpoint clamp (s idx : list nat) : list nat :=
  match s, idx with
  | d :: s', i :: idx' => (if (d =? 1)%nat then 0%nat else i) :: clamp s' idx'
  | _, _ => []
  end.

Definition bindex (s idx : list nat) : list nat :=
  clamp s (skipn (length idx - length s) idx).

Definition map2 (f : R -> R -> R) (a b : ndarray) : res ndarray :=
  do s <- broadcast_shapes (shape a) (shape b);
  Ok (NdArray s (fun idx =>
        f (item a (bindex (shape a) idx)) (item b (bindex (shape b) idx)))).

Definition multiply : ndarray -> ndarray -> res ndarray := map2 Rmult.
Definition subtract : ndarray -> ndarray -> res ndarray := map2 Rminus.
Definition divide : ndarray -> ndarray -> res ndarray := map2 Rdiv.

(** [np.log], elementwise.  On a strictly positive entry it is the natural
    logarithm; NumPy's [-inf] and [nan] for the other entries are outside
    the model, and every statement about [log] assumes positive entries. *)
Definition log (a : ndarray) : ndarray :=
  NdArray (shape a) (fun idx => ln (item a idx)).

(** [a.sum()]: the sum of all elements. *)
Fixpoint sum_range (n : nat) (f : nat -> R) : R :=
  match n with
  | O => 0
  | S k => sum_range k f + f k
  end.

Fixpoint sum_over (s : list nat) (f : list nat -> R) : R :=
  match s with
  | [] => f []
  | n :: s' => sum_range n (fun i => sum_over s' (fun idx => f (i :: idx)))
  end.

Definition sum (a : ndarray) : R := sum_over (shape a) (item a).

(** [a.sum(axis=k)] *)
Definition insert_at (k i : nat) (idx : list nat) : list nat :=
  firstn k idx ++ i :: skipn k idx.

Definition remove_at (k : nat) (s : list nat) : list nat :=
  firstn k s ++ skipn (S k) s.

Definition sum_axis (k : nat) (a : ndarray) : res ndarray :=
  if (k <? ndim a)%nat then
    Ok (NdArray (remove_at k (shape a))
          (fun idx => sum_range (nth k (shape a) 0%nat)
                        (fun i => item a (insert_at k i idx))))
  else Raise AxisError.

(** [a.transpose(axes)] and [np.transpose(a, axes)]: axis [k] of the result
    is axis [axes[k]] of [a]; [axes] must be a permutation of the axes.  A
    tuple of the wrong length is a [ValueError]; the entries are then read
    in turn, one that is out of range is an [AxisError] and one that
    repeats an earlier entry a [ValueError]. *)
Fixpoint index_of (m : nat) (p : list nat) : nat :=
  match p with
  | [] => 0
  | x :: p' => if (x =? m)%nat then 0 else S (index_of m p')
  end.

Fixpoint check_axes (r : nat) (seen p : list nat) : res unit :=
  match p with
  | [] => Ok tt
  | x :: p' =>
      if negb (x <? r)%nat then Raise AxisError
      else if existsb (Nat.eqb x) seen then Raise ValueError
      else check_axes r (x :: seen) p'
  end.

Definition transpose_axes (p : list nat) (a : ndarray) : res ndarray :=
  if negb (length p =? ndim a)%nat then Raise ValueError
  else
    do _ <- check_axes (ndim a) [] p;
    Ok (NdArray (map (fun k => nth k (shape a) 0%nat) p)
          (fun idx => item a (map (fun m => nth (index_of m p) idx 0%nat)
                                (seq 0 (ndim a))))).

(** [a.transpose()] reverses the axes. *)
Definition transpose (a : ndarray) : res ndarray :=
  transpose_axes (rev (seq 0 (ndim a))) a.

(** Every index of the shape [s]. *)
Fixpoint In_shape (s idx : list nat) : Prop :=
  match s, idx with
  | [], [] => True
  | d :: s', i :: idx' => (i < d)%nat /\ In_shape s' idx'
  | _, _ => False
  end.

Definition positive (a : ndarray) : Prop :=
  forall idx, In_shape (shape a) idx -> 0 < item a idx.

Definition nonnegative (a : ndarray) : Prop :=
  forall idx, In_shape (shape a) idx -> 0 <= item a idx.

End Np.

(** ** The derivation notebook, cell by cell

    A notebook variable is the value of a Python expression, so it is a
    [res]: an exception raised while evaluating a sub-expression is the
    value of the whole expression. *)

Module Derivation.

Import Np.
Open Scope R_scope.

Declare Scope np_scope.
Delimit Scope np_scope with np.

Definition lift2 (f : ndarray -> ndarray -> res ndarray)
    (x y : res ndarray) : res ndarray :=
  do a <- x; do b <- y; f a b.

Notation "x * y" := (lift2 multiply x y) : np_scope.
Notation "x / y" := (lift2 divide x y) : np_scope.
Notation "x - y" := (lift2 subtract x y) : np_scope.
Notation "x @[ i ; .. ; j ]" :=
  (bind x (getitem (cons i .. (cons j nil) ..)))
  (at level 1, format "x @[ i ;  .. ;  j ]") : np_scope.

Definition sum_axis_of (k : nat) (x : res ndarray) : res ndarray :=
  do a <- x; sum_axis k a.

Definition transpose_of (x : res ndarray) : res ndarray :=
  do a <- x; transpose a.

Definition transpose_axes_of (p : list nat) (x : res ndarray) : res ndarray :=
  do a <- x; transpose_axes p a.

Open Scope np_scope.

(** In [2], In [3] *)
Definition p_1 : res ndarray := Ok (array1 [0.3; 0.7]).
Definition p_2_1 : res ndarray := Ok (array2 [[0.6; 0.4]; [0.4; 0.6]]).
Definition p_3_2 : res ndarray := Ok (array2 [[0.2; 0.8]; [0.8; 0.2]]).
Definition p_interv : res ndarray := Ok (array1 [0.5; 0.5]).

(** In [4]: p(X_1,X_2,X_3) *)
Definition p_joint : res ndarray :=
  p_1@[Colon; NewAxis; NewAxis] * p_2_1@[Colon; Colon; NewAxis]
  * p_3_2@[NewAxis; Colon; Colon].

(** In [5]: p(X_2), p(X_3) *)
Definition p_2 : res ndarray :=
  sum_axis_of 0 (p_1@[Colon; NewAxis] * p_2_1).
Definition p_3 : res ndarray :=
  sum_axis_of 0 (p_2@[Colon; NewAxis] * p_3_2).

(** In [6]: p(X_2|X_3) *)
Definition p_2_3 : res ndarray :=
  transpose_of (p_3_2 * p_2@[Colon; NewAxis] / p_3@[NewAxis; Colon]).

(** In [7]: p(X_3|X_1) *)
Definition p_3_1 : res ndarray :=
  sum_axis_of 1 (p_2_1@[Colon; Colon; NewAxis] * p_3_2@[NewAxis; Colon; Colon]).

(** In [8]: p(X_2|X_1,X_3) *)
Definition p_2_1_3 : res ndarray :=
  transpose_axes_of [0; 2; 1]%nat
    (p_3_2@[NewAxis; Colon; Colon] * p_2_1@[Colon; Colon; NewAxis]
     / p_3_1@[Colon; NewAxis; Colon]).

(** In [9]: the expected log-likelihood difference. *)
Definition expect_diff (joint_prob prob1 prob2 : ndarray) : res R :=
  do m <- Ok joint_prob * (Ok (log prob1) - Ok (log prob2));
  Ok (sum m).

(** A call [expect_diff(e1, e2, e3)] on three expressions. *)
Definition call_expect_diff (x y z : res ndarray) : res R :=
  do a <- x; do b <- y; do c <- z; expect_diff a b c.

(** In [10], In [11]: edge X_1 -> X_2, condition 1, part 1 *)
Definition p_interv_1_2 : res ndarray := p_interv@[Colon; NewAxis] * p_2_1.
Definition out_11 : res R :=
  call_expect_diff p_interv_1_2 p_2_1 p_2@[NewAxis; Colon].

(** In [12], In [13]: condition 1, part 2 *)
Definition p_interv_1_2_3 : res ndarray :=
  p_interv@[Colon; NewAxis; NewAxis] * p_2_1@[Colon; Colon; NewAxis]
  * p_3_2@[NewAxis; Colon; Colon].
Definition out_13 : res R :=
  call_expect_diff (transpose_axes_of [0; 2; 1]%nat p_interv_1_2_3)
    p_2_1_3 p_2_3@[NewAxis; Colon; Colon].

(** In [14] .. In [16]: condition 3 *)
Definition p_interv_3_1_2 : res ndarray :=
  p_interv@[Colon; NewAxis; NewAxis] * p_1@[NewAxis; Colon; NewAxis]
  * p_2_1@[NewAxis; Colon; Colon].
Definition out_15 : res R :=
  call_expect_diff p_interv_1_2_3
    p_2_1@[Colon; Colon; NewAxis] p_2@[NewAxis; Colon; NewAxis].
Definition out_16 : res R :=
  call_expect_diff p_interv_3_1_2
    p_2_1@[NewAxis; Colon; Colon] p_2@[NewAxis; NewAxis; Colon].

(** In [17] *)
Definition average (x y : res R) : res R :=
  do a <- x; do b <- y; Ok (0.5 * a + 0.5 * b)%R.
Definition out_17 : res R := average out_15 out_16.

(** In [18], In [19]: edge X_2 -> X_3, condition 1, part 1 *)
Definition p_interv_2_3 : res ndarray := p_interv@[Colon; NewAxis] * p_3_2.
Definition out_19 : res R :=
  call_expect_diff p_interv_2_3 p_3_2 p_3@[NewAxis; Colon].

(** In [20], In [21]: condition 1, part 2 *)
Definition p_interv_2_3_1 : res ndarray :=
  p_interv@[Colon; NewAxis; NewAxis] * p_3_2@[Colon; Colon; NewAxis]
  * p_1@[NewAxis; NewAxis; Colon].
Definition out_21 : res R :=
  call_expect_diff (transpose_axes_of [0; 2; 1]%nat p_interv_2_3_1)
    p_3_2@[Colon; NewAxis; Colon] p_3_1@[NewAxis; Colon; Colon].

(** In [22], In [23]: condition 3, part 1 *)
Definition out_22 : res R :=
  call_expect_diff p_interv_1_2_3
    p_3_2@[NewAxis; Colon; Colon] p_3@[NewAxis; NewAxis; Colon].
Definition out_23 : res R :=
  call_expect_diff p_interv_2_3_1
    p_3_2@[Colon; Colon; NewAxis] p_3@[NewAxis; Colon; NewAxis].

Definition out_24 : res R := average out_22 out_23.

(** In [25] .. In [27]: condition 3, part 2; cell 26 repeats cell 21. *)
Definition out_25 : res R :=
  call_expect_diff p_interv_1_2_3
    p_3_2@[NewAxis; Colon; Colon] p_3_1@[Colon; NewAxis; Colon].
Definition out_27 : res R := average out_25 out_21.

(** In [28], In [29]: ancestor-descendant pair X_1, X_3, condition 1, part 1 *)
Definition p_interv_1_3 : res ndarray := sum_axis_of 1 p_interv_1_2_3.
Definition out_29 : res R :=
  call_expect_diff p_interv_1_3 p_3_1 p_3@[NewAxis; Colon].

(** In [30]: condition 1, part 2 *)
Definition out_30 : res R :=
  call_expect_diff p_interv_1_2_3
    p_3_2@[NewAxis; Colon; Colon] p_3_2@[NewAxis; Colon; Colon].


(** The array an expression evaluates to, when it raises nothing. *)
Definition value (x : res ndarray) : ndarray :=
  match x with
  | Ok a => a
  | Raise _ => NdArray [] (fun _ => 0)
  end.

End Derivation.

(** ** The derivation notebook as a function of its conditionals

    The notebook's first cell says that the conditional distributions "can
    be alternated freely".  [Chain] is the code of the cells with the four
    arrays of cells 2 and 3 as parameters; [Derivation] is [Chain] at the
    arrays the notebook ships with. *)

Module Chain.

Import Np Derivation.
Open Scope np_scope.

Section Cells.

Variables p_1 p_2_1 p_3_2 p_interv : res ndarray.

(** In [4] *)
Definition p_joint : res ndarray :=
  p_1@[Colon; NewAxis; NewAxis] * p_2_1@[Colon; Colon; NewAxis]
  * p_3_2@[NewAxis; Colon; Colon].

(** In [5] *)
Definition p_2 : res ndarray :=
  sum_axis_of 0 (p_1@[Colon; NewAxis] * p_2_1).
Definition p_3 : res ndarray :=
  sum_axis_of 0 (p_2@[Colon; NewAxis] * p_3_2).

(** In [6] *)
Definition p_2_3 : res ndarray :=
  transpose_of (p_3_2 * p_2@[Colon; NewAxis] / p_3@[NewAxis; Colon]).

(** In [7] *)
Definition p_3_1 : res ndarray :=
  sum_axis_of 1 (p_2_1@[Colon; Colon; NewAxis] * p_3_2@[NewAxis; Colon; Colon]).

(** In [8] *)
Definition p_2_1_3 : res ndarray :=
  transpose_axes_of [0; 2; 1]%nat
    (p_3_2@[NewAxis; Colon; Colon] * p_2_1@[Colon; Colon; NewAxis]
     / p_3_1@[Colon; NewAxis; Colon]).

(** In [10], In [11] *)
Definition p_interv_1_2 : res ndarray := p_interv@[Colon; NewAxis] * p_2_1.
Definition out_11 : res R :=
  call_expect_diff p_interv_1_2 p_2_1 p_2@[NewAxis; Colon].

(** In [12], In [13] *)
Definition p_interv_1_2_3 : res ndarray :=
  p_interv@[Colon; NewAxis; NewAxis] * p_2_1@[Colon; Colon; NewAxis]
  * p_3_2@[NewAxis; Colon; Colon].
Definition out_13 : res R :=
  call_expect_diff (transpose_axes_of [0; 2; 1]%nat p_interv_1_2_3)
    p_2_1_3 p_2_3@[NewAxis; Colon; Colon].

(** In [14] .. In [17] *)
Definition p_interv_3_1_2 : res ndarray :=
  p_interv@[Colon; NewAxis; NewAxis] * p_1@[NewAxis; Colon; NewAxis]
  * p_2_1@[NewAxis; Colon; Colon].
Definition out_15 : res R :=
  call_expect_diff p_interv_1_2_3
    p_2_1@[Colon; Colon; NewAxis] p_2@[NewAxis; Colon; NewAxis].
Definition out_16 : res R :=
  call_expect_diff p_interv_3_1_2
    p_2_1@[NewAxis; Colon; Colon] p_2@[NewAxis; NewAxis; Colon].
Definition out_17 : res R := average out_15 out_16.

(** In [18], In [19] *)
Definition p_interv_2_3 : res ndarray := p_interv@[Colon; NewAxis] * p_3_2.
Definition out_19 : res R :=
  call_expect_diff p_interv_2_3 p_3_2 p_3@[NewAxis; Colon].

(** In [20], In [21] *)
Definition p_interv_2_3_1 : res ndarray :=
  p_interv@[Colon; NewAxis; NewAxis] * p_3_2@[Colon; Colon; NewAxis]
  * p_1@[NewAxis; NewAxis; Colon].
Definition out_21 : res R :=
  call_expect_diff (transpose_axes_of [0; 2; 1]%nat p_interv_2_3_1)
    p_3_2@[Colon; NewAxis; Colon] p_3_1@[NewAxis; Colon; Colon].

(** In [22] .. In [24] *)
Definition out_22 : res R :=
  call_expect_diff p_interv_1_2_3
    p_3_2@[NewAxis; Colon; Colon] p_3@[NewAxis; NewAxis; Colon].
Definition out_23 : res R :=
  call_expect_diff p_interv_2_3_1
    p_3_2@[Colon; Colon; NewAxis] p_3@[NewAxis; Colon; NewAxis].
Definition out_24 : res R := average out_22 out_23.

(** In [25] .. In [27] *)
Definition out_25 : res R :=
  call_expect_diff p_interv_1_2_3
    p_3_2@[NewAxis; Colon; Colon] p_3_1@[Colon; NewAxis; Colon].
Definition out_27 : res R := average out_25 out_21.

(** In [28], In [29] *)
Definition p_interv_1_3 : res ndarray := sum_axis_of 1 p_interv_1_2_3.
Definition out_29 : res R :=
  call_expect_diff p_interv_1_3 p_3_1 p_3@[NewAxis; Colon].

(** In [30] *)
Definition out_30 : res R :=
  call_expect_diff p_interv_1_2_3
    p_3_2@[NewAxis; Colon; Colon] p_3_2@[NewAxis; Colon; Colon].

End Cells.

Open Scope R_scope.


(** What cells 5 and 7 compute, entry by entry: the marginals of X_2 and
    X_3 and the conditional of X_3 given X_1, as sums over the entries of
    the inputs. *)
Definition m2 (n : nat) (f1 f21 : list nat -> R) (j : nat) : R :=
  sum_range n (fun i => f1 [i] * f21 [i; j]).
Definition m3 (n : nat) (f1 f21 f32 : list nat -> R) (k : nat) : R :=
  sum_range n (fun j => m2 n f1 f21 j * f32 [j; k]).
Definition c31 (n : nat) (f21 f32 : list nat -> R) (i k : nat) : R :=
  sum_range n (fun j => f21 [i; j] * f32 [j; k]).

End Chain.

(** ** The expected difference over binary64 numbers

    NumPy computes in IEEE 754 binary64.  [Binary64] is cell 9 of the
    derivation notebook over Rocq's primitive binary64 numbers, whose
    multiplication, subtraction and addition round as the hardware does.
    Two things the source leaves to NumPy are parameters: the values of
    [np.log], and the order in which [ndarray.sum()] adds the entries. *)

Module Binary64.

Import Np.

Declare Scope binary64_scope.
Delimit Scope binary64_scope with binary64.
Number Notation PrimFloat.float PrimFloat.parser PrimFloat.printer
  : binary64_scope.

Abbreviation float := PrimFloat.float.

Record ndarray64 : Type :=
  NdArray64 { shape64 : list nat; item64 : list nat -> float }.

(** [np.array([x0, x1, ...])] *)
Definition array64 (l : list float) : ndarray64 :=
  NdArray64 [length l]
    (fun idx => match idx with
                | [i] => nth i l PrimFloat.zero
                | _ => PrimFloat.zero
                end).

(** An elementwise operation under broadcasting, as [Np.map2]. *)
Definition map2_64 (f : float -> float -> float) (a b : ndarray64)
    : res ndarray64 :=
  do s <- broadcast_shapes (shape64 a) (shape64 b);
  Ok (NdArray64 s (fun idx =>
        f (item64 a (bindex (shape64 a) idx))
          (item64 b (bindex (shape64 b) idx)))).

(** [np.log], elementwise, for a given logarithm on binary64 numbers. *)
Definition log64 (log : float -> float) (a : ndarray64) : ndarray64 :=
  NdArray64 (shape64 a) (fun idx => log (item64 a idx)).

(** A schedule of additions: which entries are added, in which order and
    grouping, possibly starting from a zero. *)
Inductive schedule : Type :=
| Elt (idx : list nat)
| Zero (negative : bool)
| Plus (l r : schedule).

Fixpoint sum64 (o : schedule) (a : ndarray64) : float :=
  match o with
  | Elt idx => item64 a idx
  | Zero negative =>
      if negative then PrimFloat.neg_zero else PrimFloat.zero
  | Plus l r => PrimFloat.add (sum64 l a) (sum64 r a)
  end.

(** How often a schedule adds the entry at [idx]. *)
Fixpoint visits (o : schedule) (idx : list nat) : nat :=
  match o with
  | Elt i => if decide (i = idx) then 1 else 0
  | Zero _ => 0
  | Plus l r => visits l idx + visits r idx
  end.

Fixpoint within (s : list nat) (o : schedule) : Prop :=
  match o with
  | Elt idx => In_shape s idx
  | Zero _ => True
  | Plus l r => within s l /\ within s r
  end.

(** [a.sum()] for an array of shape [s] follows a schedule that adds every
    entry of the shape once and nothing else. *)
Definition sums (s : list nat) (o : schedule) : Prop :=
  within s o /\ forall idx, In_shape s idx -> visits o idx = 1%nat.

(** In [9] *)
Definition expect_diff64 (log : float -> float) (o : schedule)
    (joint_prob prob1 prob2 : ndarray64) : res float :=
  do d <- map2_64 PrimFloat.sub (log64 log prob1) (log64 log prob2);
  do m <- map2_64 PrimFloat.mul joint_prob d;
  Ok (sum64 o m).

(** *** Reading a result

    Two results that are the same up to the sign of a zero, stated on the
    sign, mantissa and exponent of the numbers. *)
Definition same (x y : SpecFloat.spec_float) : Prop :=
  x = y
  \/ exists s s', x = SpecFloat.S754_zero s /\ y = SpecFloat.S754_zero s'.

Definition same64 (x y : float) : Prop :=
  same (FloatOps.Prim2SF x) (FloatOps.Prim2SF y).

(** A finite number: a zero or a nonzero finite number. *)
Definition SFfinite (x : SpecFloat.spec_float) : bool :=
  match x with
  | SpecFloat.S754_zero _ | SpecFloat.S754_finite _ _ _ => true
  | _ => false
  end.

Definition SFzero (x : SpecFloat.spec_float) : bool :=
  match x with SpecFloat.S754_zero _ => true | _ => false end.

End Binary64.

(** ** Certified bounds on the exponential

    The notebook's outputs are sums of logarithms of rationals.  To bound
    them, [exp y] is bounded from below by [(1 + y / 2^k) ^ (2^k)], the power
    being computed by [k] squarings on integers scaled by [2^prec], each
    rounded down. *)

Module LnBound.

Open Scope Z_scope.

Definition prec : Z := 200.
Definition one : Z := 2 ^ prec.

Fixpoint sq_iter (k : nat) (m : Z) : Z :=
  match k with
  | O => m
  | S k' => sq_iter k' (m * m / one)
  end.

(** [1 + (num/den) / 2^k], scaled and rounded down. *)
Definition start (k : nat) (num den : Z) : Z :=
  one + num * one / (den * 2 ^ Z.of_nat k).

(** [exp_gt k num den a b = true] certifies [a / b < exp (num / den)]. *)
Definition exp_gt (k : nat) (num den a b : Z) : bool :=
  (0 <? den) && (0 <? b) && (0 <=? start k num den)
  && (a * one <? sq_iter k (start k num den) * b).

(** [x ^ (2^k)] by repeated squaring, on the reals. *)
Fixpoint rsq (k : nat) (x : R) : R :=
  match k with
  | O => x
  | S k' => rsq k' (x * x)
  end.

End LnBound.

(** ** Random draws

    Sampling code is embedded with its source of randomness made explicit:
    a stream of uniform numbers in [0, 1) and the position of the next
    draw, threaded through every sampling function. *)

Module Rng.

Record rng : Type := MkRng { stream : nat -> R; pos : nat }.

Definition uniform (g : rng) : R * rng :=
  (stream g (pos g), MkRng (stream g) (S (pos g))).

Fixpoint draws (n : nat) (g : rng) : list R * rng :=
  match n with
  | O => ([], g)
  | S n' =>
      let (u, g1) := uniform g in
      let (us, g2) := draws n' g1 in
      (u :: us, g2)
  end.

(** A Bernoulli(p) draw from a uniform number. *)
Definition bernoulli (p u : R) : bool :=
  if Rlt_dec u p then true else false.

End Rng.

(** ** The adjacency sampler *)

Module Sampler.

Import Rng.
Open Scope R_scope.

(** Modelled from the spec: the graph parameters of section 3 (EdgeParameter
    pair).  The class that holds them, in [causal_discovery], is not among
    the source files.  [orientation_logit i j] is read for [i < j] only:
    one parameter per unordered pair. *)
Record edge_params : Type := EdgeParams {
  num_vars : nat;
  existence_logit : nat -> nat -> R;
  orientation_logit : nat -> nat -> R
}.

(** Modelled from the spec: the glossary's sigmoid, which turns a logit
    into a probability. *)
Definition sigmoid (x : R) : R := 1 / (1 + exp (- x)).

(** Modelled from the spec: an adjacency hypothesis (section 3), a binary
    matrix of [num_vars] rows of [num_vars] entries; [get A i j = true]
    reads "i is an active parent of j".  Reading outside the matrix gives
    [false]; writing outside it does nothing. *)
Abbreviation adjacency := (list (list bool)).

Definition no_edges (n : nat) : adjacency := replicate n (replicate n false).

Definition get (A : adjacency) (i j : nat) : bool :=
  default false (A !! i ≫= (.!! j)).

Definition set (A : adjacency) (i j : nat) (v : bool) : adjacency :=
  alter (<[j := v]>) i A.

(** The unordered pairs {i, j}, as (i, j) with i < j. *)
Definition pairs (n : nat) : list (nat * nat) :=
  i ← seq 0 n; (λ j, (i, j)) <$> seq (S i) (n - S i).

(** Modelled from the spec: section 4.3, one unordered pair.  "draw
    orientation o ~ Bernoulli(sigmoid(orientation_logit[i,j])) choosing i->j
    vs j->i; draw existence e ~ Bernoulli(sigmoid(existence_logit[chosen
    direction])); set A accordingly." *)
Definition sample_pair (p : edge_params) (st : adjacency * rng)
    (ij : nat * nat) : adjacency * rng :=
  let '(A, g) := st in
  let '(i, j) := ij in
  let (u_o, g1) := uniform g in
  let o := bernoulli (sigmoid (orientation_logit p i j)) u_o in
  let '(src, dst) := if o then (i, j) else (j, i) in
  let (u_e, g2) := uniform g1 in
  let e := bernoulli (sigmoid (existence_logit p src dst)) u_e in
  (set A src dst e, g2).

(** Modelled from the spec: [sample_hypothesis] of section 4.3, the draws
    made independently per unordered pair, starting from the empty graph
    (no self-loops: the diagonal is never written). *)
Definition sample_hypothesis (p : edge_params) (g : rng) : adjacency * rng :=
  fold_left (sample_pair p) (pairs (num_vars p))
    (no_edges (num_vars p), g).

(** The unordered pair an entry of the matrix belongs to. *)
Definition key (a b : nat) : nat * nat := (Nat.min a b, Nat.max a b).

End Sampler.

(** ** The structure optimizer's two phases *)

Module Optimizer.

Import Rng Sampler.

Section Phases.

(** The collaborators the spec keeps opaque: the parameters of one
    conditional density estimator, a batch of the data source, the data
    source's draw for one distribution-fitting step (observational or a
    randomly chosen single-variable intervention), one gradient-ascent step
    of the estimator of variable [j] under a sampled parent mask, and one
    graph-fitting update of the logits from the frozen estimators. *)
Variable Model : Type.
Variable Batch : Type.
Variable draw_batch : rng -> Batch * rng.
Variable fit_step : nat -> adjacency -> Batch -> Model -> Model.
Variable graph_step : edge_params -> list Model -> rng -> edge_params * rng.

(** Modelled from the spec: the optimizer's state (sections 3 and 5): the
    logits, one density model per variable, and the random source. *)
Record state : Type := State {
  graph_params : edge_params;
  models : list Model;
  gen : rng
}.

(** Modelled from the spec: one inner step of Phase A (section 4.4):
    "sample a batch of adjacency hypotheses via 4.3; sample an
    observational or randomly-chosen single-variable interventional batch
    via 4.1; update each Conditional Density Model by gradient ascent".
    The optimizer's own code, in [causal_discovery], is not among the
    source files. *)
Definition phase_a_step (st : state) : state :=
  let (A, g1) := sample_hypothesis (graph_params st) (gen st) in
  let (batch, g2) := draw_batch g1 in
  State (graph_params st)
        (imap (fun j m => fit_step j A batch m) (models st))
        g2.

(** Modelled from the spec: Phase A, "for a configured number of inner
    steps". *)
Definition phase_a (steps : nat) (st : state) : state :=
  Nat.iter steps phase_a_step st.

(** Modelled from the spec: one inner step of Phase B, which reads the
    density models and writes the logits. *)
Definition phase_b_step (st : state) : state :=
  let (p, g1) := graph_step (graph_params st) (models st) (gen st) in
  State p (models st) g1.

(** Modelled from the spec: Phase B, "for a configured number of inner
    steps". *)
Definition phase_b (steps : nat) (st : state) : state :=
  Nat.iter steps phase_b_step st.

(** Modelled from the spec: the outer loop, one Phase A then one Phase B
    per epoch. *)
Definition run (num_epochs steps_a steps_b : nat) (st : state) : state :=
  Nat.iter num_epochs (fun s => phase_b steps_b (phase_a steps_a s)) st.

End Phases.

End Optimizer.

(** ** The interventional data source *)

Module DataSource.

Import Rng.

(** Modelled from the spec: InterventionSpec (section 3): a fixed value
    (perfect intervention) or a replacement distribution (imperfect
    intervention), the latter given by its sampler from a uniform number. *)
Inductive intervention : Type :=
| Perfect (value : nat)
| Imperfect (dist : R -> nat).

(** Modelled from the spec: a variable of the graph: its name, its number
    of categories, its parents, and its causal mechanism, a sampler of the
    conditional distribution given the parents' values.  The class
    [CausalDAG] of [causal_graphs.graph_definition] is imported by the
    walkthrough notebook and is not among the source files. *)
Record variable : Type := Var {
  name : string;
  num_categs : nat;
  parents : list string;
  mechanism : list nat -> R -> nat
}.

(** Modelled from the spec: the graph, its variables in any order. *)
Definition causal_dag : Type := list variable.

(** A batch holds, per variable, the values of its examples.  The values
    of the parents [ps] in example [b]: *)
Definition parent_vals (vals : gmap string (list nat)) (ps : list string)
    (b : nat) : list nat :=
  (λ p, nth b (default [] (vals !! p)) 0%nat) <$> ps.

Definition from_mechanism (v : variable) (vals : gmap string (list nat))
    (us : list R) : list nat :=
  imap (fun b u => mechanism v (parent_vals vals (parents v) b) u) us.

(** Modelled from the spec: sampling one variable (section 4.1): an
    intervened variable is "clamped (perfect intervention, value fixed for
    the whole batch) or redrawn from the given replacement distribution";
    any other variable is sampled "according to the true causal mechanism"
    from the values its parents got. *)
Definition sample_var (n : nat) (itv : gmap string intervention)
    (st : gmap string (list nat) * rng) (v : variable)
    : gmap string (list nat) * rng :=
  let (vals, g) := st in
  match itv !! name v with
  | Some (Perfect c) => (<[name v := replicate n c]> vals, g)
  | Some (Imperfect d) =>
      let (us, g') := draws n g in (<[name v := d <$> us]> vals, g')
  | None =>
      let (us, g') := draws n g in
      (<[name v := from_mechanism v vals us]> vals, g')
  end.

Definition names (dag : causal_dag) : gset string :=
  list_to_set (name <$> dag).

(** Modelled from the spec: "ancestrally ordered" (section 4.1): the
    variables are visited in an order in which every variable comes after
    its parents.  The order is found by taking, again and again, the first
    variable not yet visited all of whose parents have been visited. *)
Definition ready (done : list string) (v : variable) : bool :=
  forallb (fun p => bool_decide (p ∈ done)) (parents v).

Fixpoint pick (done : list string) (todo : list variable)
    : option (variable * list variable) :=
  match todo with
  | [] => None
  | v :: todo' =>
      if ready done v then Some (v, todo')
      else match pick done todo' with
           | Some (w, rest) => Some (w, v :: rest)
           | None => None
           end
  end.

Fixpoint ancestral_order_from (fuel : nat) (done : list string)
    (todo : list variable) : option (list variable) :=
  match todo, fuel with
  | [], _ => Some []
  | _, O => None
  | _, S fuel' =>
      match pick done todo with
      | Some (v, rest) =>
          match ancestral_order_from fuel' (name v :: done) rest with
          | Some order => Some (v :: order)
          | None => None
          end
      | None => None
      end
  end.

Definition ancestral_order (dag : causal_dag) : option (list variable) :=
  ancestral_order_from (length dag) [] dag.

(** Modelled from the spec: [sample(n, interventions=None)] of section 4.1.
    "Failure: requesting intervention on an undefined variable raises a
    configuration error."  The spec does not say what happens when the
    variables have no ancestral order (a cycle, or a parent that is not a
    variable); the model raises the same error. *)
Definition sample (dag : causal_dag) (n : nat)
    (interventions : option (gmap string intervention)) (g : rng)
    : res (gmap string (list nat) * rng) :=
  let itv := default ∅ interventions in
  if decide (dom itv ⊆ names dag) then
    match ancestral_order dag with
    | Some order => Ok (fold_left (sample_var n itv) order (∅, g))
    | None => Raise ConfigurationError
    end
  else Raise ConfigurationError.

(** *** What a batch has to be

    The contract of [sample], written without the functions above. *)

(** Every variable of [l] has its parents in [done] or before it in [l]. *)
Fixpoint ordered (done : list string) (l : list variable) : Prop :=
  match l with
  | [] => True
  | v :: l' =>
      (forall p, p ∈ parents v -> p ∈ done) /\ ordered (name v :: done) l'
  end.

(** An ancestral order: no name twice, every variable after its parents. *)
Definition ancestral (order : list variable) : Prop :=
  NoDup (name <$> order) /\ ordered [] order.

(** The description is a directed acyclic graph: its variables can be put
    in an ancestral order. *)
Definition is_dag (dag : causal_dag) : Prop :=
  exists order, order ≡ₚ dag /\ ancestral order.

(** A variable draws from the random stream unless it is clamped. *)
Definition stochastic (itv : gmap string intervention) (v : variable)
    : bool :=
  match itv !! name v with
  | Some (Perfect _) => false
  | _ => true
  end.

Fixpoint drawn (itv : gmap string intervention) (l : list variable) : nat :=
  match l with
  | [] => 0
  | v :: l' => (if stochastic itv v then 1 else 0) + drawn itv l'
  end.

(** [vals] is the batch of [n] examples that visiting the variables in
    [order] produces from the generator [g], which ends as [g']: every
    variable has a column of [n] values; example [b] of a clamped variable
    is the clamped value; example [b] of any other variable is made from
    the uniform number at its own position of the stream, by the
    replacement distribution if there is one and otherwise by the
    variable's mechanism at the values its parents have in example [b] of
    this same batch. *)
Definition batch_of (n : nat) (itv : gmap string intervention) (g : rng)
    (order : list variable) (vals : gmap string (list nat)) (g' : rng)
    : Prop :=
  dom vals = list_to_set (name <$> order)
  /\ stream g' = stream g
  /\ pos g' = pos g + n * drawn itv order
  /\ forall k v, order !! k = Some v ->
       exists col,
         vals !! name v = Some col /\ length col = n
         /\ forall b, b < n ->
              exists pvals,
                Forall2 (fun p x => exists pc, vals !! p = Some pc
                                               /\ pc !! b = Some x)
                  (parents v) pvals
                /\ let u := stream g
                              (pos g + n * drawn itv (take k order) + b) in
                   col !! b
                   = Some (match itv !! name v with
                           | Some (Perfect c) => c
                           | Some (Imperfect d) => d u
                           | None => mechanism v pvals u
                           end).

(** The graph of the walkthrough notebook (Out [5]): eight variables of ten
    categories, D, E, G, H, C, F, A, B.  The notebook does not show the
    conditional distributions; [mech] stands for them. *)
Definition walkthrough_graph (mech : string -> list nat -> R -> nat)
    : causal_dag :=
  [ Var "D" 10 [] (mech "D");
    Var "E" 10 ["D"] (mech "E");
    Var "G" 10 ["D"] (mech "G");
    Var "H" 10 ["E"] (mech "H");
    Var "C" 10 ["E"; "G"] (mech "C");
    Var "F" 10 ["H"] (mech "F");
    Var "A" 10 ["H"; "C"] (mech "A");
    Var "B" 10 ["D"; "A"] (mech "B") ].

End DataSource.

(** * Theorems *)

(** ** Soundness of the certified bounds *)

Module LnBoundFacts.

Import LnBound.
Open Scope R_scope.

Lemma rsq_exp k : forall y, rsq k (exp (y / 2 ^ k)) = exp y.
Proof.
  induction k as [|k IH]; intros y; simpl.
  - f_equal. field.
  - rewrite <- exp_plus.
    replace (y / (2 * 2 ^ k) + y / (2 * 2 ^ k)) with (y / 2 ^ k).
    + apply IH.
    + field. apply pow_nonzero. lra.
Qed.

Lemma IZR_div_le z d : (0 < d)%Z -> IZR (z / d) <= IZR z / IZR d.
Proof.
  intros Hd.
  assert (Hd' : 0 < IZR d) by (apply IZR_lt; exact Hd).
  apply Rmult_le_reg_r with (IZR d); [exact Hd'|].
  replace (IZR z / IZR d * IZR d) with (IZR z) by (field; lra).
  rewrite <- mult_IZR. apply IZR_le.
  rewrite Z.mul_comm. apply Z.mul_div_le. exact Hd.
Qed.

Lemma one_pos : (0 < one)%Z.
Proof. reflexivity. Qed.

Lemma sq_iter_sound k : forall m x,
  (0 <= m)%Z -> IZR m / IZR one <= x ->
  IZR (sq_iter k m) / IZR one <= rsq k x.
Proof.
  pose proof one_pos as H1.
  assert (H1' : 0 < IZR one) by (apply IZR_lt; exact H1).
  induction k as [|k IH]; intros m x Hm Hx; simpl.
  - exact Hx.
  - apply IH.
    + apply Z.div_pos; [nia | exact H1].
    + assert (Hm' : 0 <= IZR m / IZR one).
      { apply Rmult_le_pos; [apply IZR_le; exact Hm | left; apply Rinv_0_lt_compat; exact H1']. }
      apply Rle_trans with (IZR m / IZR one * (IZR m / IZR one)).
      * apply Rmult_le_reg_r with (IZR one); [exact H1'|].
        replace (IZR (m * m / one) / IZR one * IZR one) with (IZR (m * m / one)) by (field; lra).
        replace (IZR m / IZR one * (IZR m / IZR one) * IZR one) with (IZR (m * m) / IZR one)
          by (rewrite mult_IZR; field; lra).
        apply IZR_div_le. exact H1.
      * apply Rmult_le_compat; assumption.
Qed.

Lemma start_sound k num den :
  (0 < den)%Z ->
  IZR (start k num den) / IZR one <= 1 + IZR num / IZR den / 2 ^ k.
Proof.
  intros Hden. unfold start.
  pose proof one_pos as H1.
  assert (H1' : 0 < IZR one) by (apply IZR_lt; exact H1).
  assert (Hd' : 0 < IZR den) by (apply IZR_lt; exact Hden).
  assert (Hp : 0 < 2 ^ k) by (apply pow_lt; lra).
  assert (Hq : (0 < den * 2 ^ Z.of_nat k)%Z) by (apply Z.mul_pos_pos; [exact Hden | apply Z.pow_pos_nonneg; lia]).
  rewrite plus_IZR.
  pose proof (IZR_div_le (num * one) (den * 2 ^ Z.of_nat k) Hq) as H.
  rewrite !mult_IZR, <- pow_IZR in H.
  replace ((IZR one + IZR (num * one / (den * 2 ^ Z.of_nat k))) / IZR one)
    with (1 + IZR (num * one / (den * 2 ^ Z.of_nat k)) / IZR one) by (field; lra).
  apply Rplus_le_compat_l.
  apply Rmult_le_reg_r with (IZR one); [exact H1'|].
  replace (IZR (num * one / (den * 2 ^ Z.of_nat k)) / IZR one * IZR one)
    with (IZR (num * one / (den * 2 ^ Z.of_nat k))) by (field; lra).
  eapply Rle_trans; [exact H|].
  right. field. split; lra.
Qed.

Lemma exp_gt_sound k num den a b :
  exp_gt k num den a b = true -> IZR a / IZR b < exp (IZR num / IZR den).
Proof.
  unfold exp_gt. rewrite !andb_true_iff.
  intros [[[Hden Hb] Hs] Hc].
  apply Z.ltb_lt in Hden, Hb, Hc. apply Z.leb_le in Hs.
  pose proof one_pos as H1.
  assert (H1' : 0 < IZR one) by (apply IZR_lt; exact H1).
  assert (Hb' : 0 < IZR b) by (apply IZR_lt; exact Hb).
  apply Rlt_le_trans with (IZR (sq_iter k (start k num den)) / IZR one).
  - apply IZR_lt in Hc. rewrite !mult_IZR in Hc.
    apply Rmult_lt_reg_r with (IZR b * IZR one); [apply Rmult_lt_0_compat; assumption|].
    replace (IZR a / IZR b * (IZR b * IZR one)) with (IZR a * IZR one) by (field; lra).
    replace (IZR (sq_iter k (start k num den)) / IZR one * (IZR b * IZR one))
      with (IZR (sq_iter k (start k num den)) * IZR b) by (field; lra).
    exact Hc.
  - rewrite <- (rsq_exp k (IZR num / IZR den)).
    apply sq_iter_sound; [exact Hs|].
    eapply Rle_trans; [apply start_sound; exact Hden|].
    apply exp_ineq1_le.
Qed.

Lemma ln_lt_cert k hn hd a b :
  (0 < a)%Z -> (0 < b)%Z -> exp_gt k hn hd a b = true ->
  ln (IZR a / IZR b) < IZR hn / IZR hd.
Proof.
  intros Ha Hb H. apply exp_gt_sound in H.
  rewrite <- (ln_exp (IZR hn / IZR hd)).
  apply ln_increasing; [|exact H].
  apply Rdiv_lt_0_compat; apply IZR_lt; assumption.
Qed.

Lemma ln_gt_cert k ln_ ld a b :
  (0 < a)%Z -> (0 < b)%Z -> exp_gt k (- ln_) ld b a = true ->
  IZR ln_ / IZR ld < ln (IZR a / IZR b).
Proof.
  intros Ha Hb H. 
  assert (Hld : (0 < ld)%Z).
  { unfold exp_gt in H. rewrite !andb_true_iff in H. destruct H as [[[H _] _] _]. apply Z.ltb_lt in H. exact H. }
  apply exp_gt_sound in H.
  assert (Ha' : 0 < IZR a) by (apply IZR_lt; exact Ha).
  assert (Hb' : 0 < IZR b) by (apply IZR_lt; exact Hb).
  assert (Hd' : 0 < IZR ld) by (apply IZR_lt; exact Hld).
  replace (IZR ln_ / IZR ld) with (- (IZR (- ln_) / IZR ld)) by (rewrite opp_IZR; field; lra).
  replace (IZR a / IZR b) with (/ (IZR b / IZR a)) by (field; lra).
  rewrite ln_Rinv by (apply Rdiv_lt_0_compat; assumption).
  apply Ropp_lt_contravar.
  rewrite <- (ln_exp (IZR (- ln_) / IZR ld)).
  apply ln_increasing; [|exact H].
  apply Rdiv_lt_0_compat; assumption.
Qed.

Lemma ln_between k lo hi d a b x :
  (0 < a)%Z -> (0 < b)%Z ->
  exp_gt k (- lo) d b a = true -> exp_gt k hi d a b = true ->
  x = IZR a / IZR b ->
  IZR lo / IZR d < ln x < IZR hi / IZR d.
Proof.
  intros Ha Hb Hlo Hhi ->. split.
  - apply (ln_gt_cert k); assumption.
  - apply (ln_lt_cert k); assumption.
Qed.

Ltac certify lo hi a b :=
  intros ->;
  pose proof (ln_between 80 lo hi (10 ^ 22) a b (IZR a / IZR b)
                eq_refl eq_refl) as H;
  lapply H; [clear H; intros H | vm_compute; reflexivity];
  lapply H; [clear H; intros H | vm_compute; reflexivity];
  specialize (H eq_refl); simpl in H; lra.

(** The logarithms of the ten probabilities the notebook's contrasts read,
    each to 21 decimals. *)
Lemma ln_06 x :
  x = 6 / 10 ->
  -5108256237659906832057 / 10 ^ 22 < ln x < -5108256237659906832054 / 10 ^ 22.
Proof. certify (-5108256237659906832057)%Z (-5108256237659906832054)%Z 6%Z 10%Z. Qed.

Lemma ln_04 x :
  x = 4 / 10 ->
  -9162907318741550651837 / 10 ^ 22 < ln x < -9162907318741550651834 / 10 ^ 22.
Proof. certify (-9162907318741550651837)%Z (-9162907318741550651834)%Z 4%Z 10%Z. Qed.

Lemma ln_046 x :
  x = 46 / 100 ->
  -7765287894989963678121 / 10 ^ 22 < ln x < -7765287894989963678118 / 10 ^ 22.
Proof. certify (-7765287894989963678121)%Z (-7765287894989963678118)%Z 46%Z 100%Z. Qed.

Lemma ln_054 x :
  x = 54 / 100 ->
  -6161861394238169844332 / 10 ^ 22 < ln x < -6161861394238169844329 / 10 ^ 22.
Proof. certify (-6161861394238169844332)%Z (-6161861394238169844329)%Z 54%Z 100%Z. Qed.

Lemma ln_02 x :
  x = 2 / 10 ->
  -16094379124341003746009 / 10 ^ 22 < ln x < -16094379124341003746006 / 10 ^ 22.
Proof. certify (-16094379124341003746009)%Z (-16094379124341003746006)%Z 2%Z 10%Z. Qed.

Lemma ln_08 x :
  x = 8 / 10 ->
  -2231435513142097557664 / 10 ^ 22 < ln x < -2231435513142097557661 / 10 ^ 22.
Proof. certify (-2231435513142097557664)%Z (-2231435513142097557661)%Z 8%Z 10%Z. Qed.

Lemma ln_0524 x :
  x = 524 / 1000 ->
  -6462635946610948890702 / 10 ^ 22 < ln x < -6462635946610948890699 / 10 ^ 22.
Proof. certify (-6462635946610948890702)%Z (-6462635946610948890699)%Z 524%Z 1000%Z. Qed.

Lemma ln_0476 x :
  x = 476 / 1000 ->
  -7423374247507170478648 / 10 ^ 22 < ln x < -7423374247507170478645 / 10 ^ 22.
Proof. certify (-7423374247507170478648)%Z (-7423374247507170478645)%Z 476%Z 1000%Z. Qed.

Lemma ln_044 x :
  x = 44 / 100 ->
  -8209805520698302051397 / 10 ^ 22 < ln x < -8209805520698302051394 / 10 ^ 22.
Proof. certify (-8209805520698302051397)%Z (-8209805520698302051394)%Z 44%Z 100%Z. Qed.

Lemma ln_056 x :
  x = 56 / 100 ->
  -5798184952529421346791 / 10 ^ 22 < ln x < -5798184952529421346788 / 10 ^ 22.
Proof. certify (-5798184952529421346791)%Z (-5798184952529421346788)%Z 56%Z 100%Z. Qed.

(** The logarithms of the conditionals p(X_2|X_3) and p(X_2|X_1,X_3), which
    cells 6 and 8 compute as quotients. *)
Lemma ln_1_7 x :
  x = 1 / 7 ->
  -19459101490553133051055 / 10 ^ 22 < ln x < -19459101490553133051052 / 10 ^ 22.
Proof. certify (-19459101490553133051055)%Z (-19459101490553133051052)%Z 1%Z 7%Z. Qed.

Lemma ln_23_131 x :
  x = 23 / 131 ->
  -17397031072720018533428 / 10 ^ 22 < ln x < -17397031072720018533425 / 10 ^ 22.
Proof. certify (-17397031072720018533428)%Z (-17397031072720018533425)%Z 23%Z 131%Z. Qed.

Lemma ln_27_119 x :
  x = 27 / 119 ->
  -14832866271072003111693 / 10 ^ 22 < ln x < -14832866271072003111690 / 10 ^ 22.
Proof. certify (-14832866271072003111693)%Z (-14832866271072003111690)%Z 27%Z 119%Z. Qed.

Lemma ln_3_11 x :
  x = 3 / 11 ->
  -12992829841302608526668 / 10 ^ 22 < ln x < -12992829841302608526665 / 10 ^ 22.
Proof. certify (-12992829841302608526668)%Z (-12992829841302608526665)%Z 3%Z 11%Z. Qed.

Lemma ln_8_11 x :
  x = 8 / 11 ->
  -3184537311185346158104 / 10 ^ 22 < ln x < -3184537311185346158101 / 10 ^ 22.
Proof. certify (-3184537311185346158104)%Z (-3184537311185346158101)%Z 8%Z 11%Z. Qed.

Lemma ln_92_119 x :
  x = 92 / 119 ->
  -2573349160624890757138 / 10 ^ 22 < ln x < -2573349160624890757135 / 10 ^ 22.
Proof. certify (-2573349160624890757138)%Z (-2573349160624890757135)%Z 92%Z 119%Z. Qed.

Lemma ln_108_131 x :
  x = 108 / 131 ->
  -1930660960769318511294 / 10 ^ 22 < ln x < -1930660960769318511291 / 10 ^ 22.
Proof. certify (-1930660960769318511294)%Z (-1930660960769318511291)%Z 108%Z 131%Z. Qed.

Lemma ln_6_7 x :
  x = 6 / 7 ->
  -1541506798272583042930 / 10 ^ 22 < ln x < -1541506798272583042927 / 10 ^ 22.
Proof. certify (-1541506798272583042930)%Z (-1541506798272583042927)%Z 6%Z 7%Z. Qed.

End LnBoundFacts.

(** ** NumPy arrays: sums and broadcasting *)

Module NpFacts.

Import Np.
Open Scope R_scope.

(** *** Sums *)

Lemma sum_range_ext n f g :
  (forall i, (i < n)%nat -> f i = g i) -> sum_range n f = sum_range n g.
Proof.
  induction n as [|n IH]; intros H; simpl; [reflexivity|].
  rewrite IH by (intros; apply H; lia). rewrite H by lia. reflexivity.
Qed.

Lemma sum_range_opp n f : sum_range n (fun i => - f i) = - sum_range n f.
Proof. induction n as [|n IH]; simpl; [lra | rewrite IH; lra]. Qed.

Lemma sum_range_zero n : sum_range n (fun _ => 0) = 0.
Proof. induction n as [|n IH]; simpl; [reflexivity | rewrite IH; lra]. Qed.

Lemma sum_range_scal n f c :
  sum_range n (fun i => f i * c) = sum_range n f * c.
Proof. induction n as [|n IH]; simpl; [lra | rewrite IH; lra]. Qed.

Lemma sum_range_plus n f g :
  sum_range n (fun i => f i + g i) = sum_range n f + sum_range n g.
Proof. induction n as [|n IH]; simpl; [lra | rewrite IH; lra]. Qed.

Lemma sum_range_swap n m (f : nat -> nat -> R) :
  sum_range n (fun i => sum_range m (fun j => f i j))
  = sum_range m (fun j => sum_range n (fun i => f i j)).
Proof.
  induction n as [|n IH]; simpl.
  - symmetry. apply sum_range_zero.
  - rewrite IH. symmetry. apply sum_range_plus.
Qed.

Lemma sum_over_ext s : forall f g,
  (forall idx, In_shape s idx -> f idx = g idx) ->
  sum_over s f = sum_over s g.
Proof.
  induction s as [|d s IH]; intros f g H; simpl.
  - apply H. exact I.
  - apply sum_range_ext. intros i Hi. apply IH.
    intros idx Hidx. apply H. simpl. auto.
Qed.

Lemma sum_over_opp s : forall f,
  sum_over s (fun idx => - f idx) = - sum_over s f.
Proof.
  induction s as [|d s IH]; intros f; simpl; [reflexivity|].
  rewrite <- sum_range_opp. apply sum_range_ext. intros i _. apply IH.
Qed.

Lemma sum_over_zero s : sum_over s (fun _ => 0) = 0.
Proof.
  induction s as [|d s IH]; simpl; [reflexivity|].
  rewrite (sum_range_ext d _ (fun _ => 0)) by (intros; apply IH).
  apply sum_range_zero.
Qed.

Lemma sum_over_sum_range s : forall n (f : nat -> list nat -> R),
  sum_over s (fun idx => sum_range n (fun i => f i idx))
  = sum_range n (fun i => sum_over s (f i)).
Proof.
  induction s as [|d s IH]; intros n f; simpl; [reflexivity|].
  rewrite sum_range_swap. apply sum_range_ext. intros i _.
  rewrite <- IH. reflexivity.
Qed.

(** Summing over a shape with one more axis, of length [d] at position
    [k], is summing over the shape and, inside, over that axis. *)
Lemma sum_over_insert_at k : forall s d f,
  (k <= length s)%nat ->
  sum_over (insert_at k d s) f
  = sum_over s (fun idx => sum_range d (fun i => f (insert_at k i idx))).
Proof.
  induction k as [|k IH]; intros s d f Hk.
  - unfold insert_at. simpl. rewrite sum_over_sum_range. reflexivity.
  - destruct s as [|e s]; [simpl in Hk; lia|].
    unfold insert_at. simpl. apply sum_range_ext. intros i _.
    apply (IH s d (fun idx => f (i :: idx))). simpl in Hk. lia.
Qed.

Lemma In_shape_length s : forall idx, In_shape s idx -> length idx = length s.
Proof.
  induction s as [|d s IH]; intros [|i idx] H; simpl in *; try tauto.
  f_equal. apply IH. tauto.
Qed.

(** *** Broadcasting of shapes *)

Lemma bc_dim_comm a b : bc_dim a b = bc_dim b a.
Proof.
  unfold bc_dim.
  destruct (Nat.eqb_spec a b), (Nat.eqb_spec b a), (Nat.eqb_spec a 1),
    (Nat.eqb_spec b 1); subst; try reflexivity; congruence.
Qed.

Lemma bc_dims_comm s : forall t, bc_dims s t = bc_dims t s.
Proof.
  induction s as [|a s IH]; intros [|b t]; simpl; try reflexivity.
  rewrite bc_dim_comm, IH. reflexivity.
Qed.

Lemma broadcast_shapes_comm s t : broadcast_shapes s t = broadcast_shapes t s.
Proof.
  unfold broadcast_shapes. rewrite Nat.max_comm. apply bc_dims_comm.
Qed.

Lemma bc_dim_self a : bc_dim a a = Ok a.
Proof. unfold bc_dim. rewrite Nat.eqb_refl. reflexivity. Qed.

Lemma bc_dims_self s : bc_dims s s = Ok s.
Proof.
  induction s as [|a s IH]; simpl; [reflexivity|].
  rewrite bc_dim_self, IH. reflexivity.
Qed.

Lemma pad_self s : pad (length s) s = s.
Proof. unfold pad. rewrite Nat.sub_diag. reflexivity. Qed.

Lemma broadcast_shapes_self s : broadcast_shapes s s = Ok s.
Proof.
  unfold broadcast_shapes. rewrite Nat.max_id, pad_self. apply bc_dims_self.
Qed.

Lemma broadcast_shapes_same_rank s t :
  length s = length t -> broadcast_shapes s t = bc_dims s t.
Proof.
  intros H. unfold broadcast_shapes. rewrite H, Nat.max_id.
  rewrite pad_self. rewrite <- H, pad_self. reflexivity.
Qed.

Lemma bc_dims_length s : forall t r,
  bc_dims s t = Ok r -> length t = length s /\ length r = length s.
Proof.
  induction s as [|a s IH]; intros [|b t] r H; simpl in H; try discriminate.
  - inversion H. auto.
  - destruct (bc_dim a b); [|discriminate]. simpl in H.
    destruct (bc_dims s t) as [r'|] eqn:E; [|discriminate]. simpl in H.
    inversion H. destruct (IH _ _ E). simpl. lia.
Qed.

Lemma bc_dim_left a b d j e :
  bc_dim a b = Ok d -> bc_dim j d = Ok e -> exists e', bc_dim j a = Ok e'.
Proof.
  unfold bc_dim.
  destruct (Nat.eqb_spec a b), (Nat.eqb_spec a 1), (Nat.eqb_spec b 1),
    (Nat.eqb_spec j a), (Nat.eqb_spec j 1);
    intros H1 H2; subst; eauto; try discriminate;
    inversion H1; subst;
    repeat match goal with
    | H : context [Nat.eqb ?x ?y] |- _ => destruct (Nat.eqb_spec x y)
    end; subst; try discriminate; try congruence; eauto.
Qed.

Lemma bc_dims_left a : forall b s j t,
  bc_dims a b = Ok s -> bc_dims j s = Ok t -> exists t', bc_dims j a = Ok t'.
Proof.
  induction a as [|x a IH]; intros [|y b] s [|z j] t H1 H2;
    simpl in *; try discriminate; eauto.
  - inversion H1; subst. simpl in H2. discriminate.
  - destruct (bc_dim x y) as [d|] eqn:Ed; [|discriminate]. simpl in H1.
    destruct (bc_dims a b) as [s'|] eqn:Es; [|discriminate]. simpl in H1.
    inversion H1; subst. simpl in H2. discriminate.
  - destruct (bc_dim x y) as [d|] eqn:Ed; [|discriminate]. simpl in H1.
    destruct (bc_dims a b) as [s'|] eqn:Es; [|discriminate]. simpl in H1.
    inversion H1; subst. simpl in H2.
    destruct (bc_dim z d) as [e|] eqn:Ee; [|discriminate]. simpl in H2.
    destruct (bc_dims j s') as [t'|] eqn:Et; [|discriminate].
    destruct (bc_dim_left _ _ _ _ _ Ed Ee) as [e' ->].
    destruct (IH _ _ _ _ Es Et) as [t'' ->]. simpl. eauto.
Qed.

Lemma bc_dims_ones n : forall s t,
  bc_dims (repeat 1%nat n ++ s) (repeat 1%nat n ++ t)
  = bind (bc_dims s t) (fun r => Ok (repeat 1%nat n ++ r)).
Proof.
  induction n as [|n IH]; intros s t; simpl.
  - destruct (bc_dims s t); reflexivity.
  - rewrite IH. destruct (bc_dims s t); reflexivity.
Qed.

Lemma pad_add n r s :
  (length s <= r)%nat -> pad (n + r) s = repeat 1%nat n ++ pad r s.
Proof.
  intros H. unfold pad.
  replace (n + r - length s)%nat with (n + (r - length s))%nat by lia.
  rewrite repeat_app, <- app_assoc. reflexivity.
Qed.

Lemma pad_length r s : (length s <= r)%nat -> length (pad r s) = r.
Proof. intros H. unfold pad. rewrite length_app, repeat_length. lia. Qed.

(** A third shape that broadcasts against the broadcast of two shapes
    broadcasts against the first of them. *)
Lemma broadcast_shapes_left a b s j t :
  broadcast_shapes a b = Ok s -> broadcast_shapes j s = Ok t ->
  exists t', broadcast_shapes j a = Ok t'.
Proof.
  unfold broadcast_shapes. intros H1 H2.
  set (r1 := Nat.max (length a) (length b)) in *.
  destruct (bc_dims_length _ _ _ H1) as [_ Hs].
  rewrite pad_length in Hs by lia.
  set (r2 := Nat.max (length j) (length s)) in *.
  set (r3 := Nat.max (length j) (length a)).
  assert (E2 : r2 = ((r2 - r1) + r1)%nat) by lia.
  assert (E3 : r2 = ((r2 - r3) + r3)%nat) by lia.
  assert (H1' : bc_dims (pad r2 a) (pad r2 b) = Ok (pad r2 s)).
  { rewrite E2, !pad_add by lia. rewrite bc_dims_ones, H1. simpl.
    rewrite <- Hs, pad_self. reflexivity. }
  destruct (bc_dims_left _ _ _ _ _ H1' H2) as [t' Ht'].
  rewrite E3, !pad_add in Ht' by lia. rewrite bc_dims_ones in Ht'.
  destruct (bc_dims (pad r3 j) (pad r3 a)) as [t''|]; [eauto | discriminate].
Qed.

(** *** Inserting and removing an axis *)

Lemma insert_at_0 i (idx : list nat) : insert_at 0 i idx = i :: idx.
Proof. destruct idx; reflexivity. Qed.

Lemma insert_at_S k i x (idx : list nat) :
  insert_at (S k) i (x :: idx) = x :: insert_at k i idx.
Proof. reflexivity. Qed.

Lemma insert_at_length k i (idx : list nat) :
  (k <= length idx)%nat -> length (insert_at k i idx) = S (length idx).
Proof.
  intros H. unfold insert_at.
  rewrite length_app, length_firstn. simpl. rewrite length_skipn. lia.
Qed.

Lemma remove_at_length k (s : list nat) :
  (k < length s)%nat -> S (length (remove_at k s)) = length s.
Proof.
  intros H. unfold remove_at.
  rewrite length_app, length_firstn, length_skipn. lia.
Qed.

Lemma insert_remove k : forall s : list nat,
  (k < length s)%nat -> insert_at k (nth k s 0%nat) (remove_at k s) = s.
Proof.
  induction k as [|k IH]; intros [|d s] H; simpl in H; try lia.
  - reflexivity.
  - unfold insert_at, remove_at in *. simpl. f_equal.
    apply IH. lia.
Qed.

Lemma clamp_length s : forall idx,
  length idx = length s -> length (clamp s idx) = length s.
Proof.
  induction s as [|d s IH]; intros [|i idx] H; simpl in *; try lia.
  f_equal. apply IH. lia.
Qed.

Lemma bindex_same_length s idx :
  length idx = length s -> bindex s idx = clamp s idx.
Proof. intros H. unfold bindex. rewrite H, Nat.sub_diag. reflexivity. Qed.

Lemma clamp_insert_at k : forall s idx d i,
  (k <= length s)%nat -> length idx = length s ->
  clamp (insert_at k d s) (insert_at k i idx)
  = insert_at k (if (d =? 1)%nat then 0%nat else i) (clamp s idx).
Proof.
  induction k as [|k IH]; intros s idx d i Hk Hl.
  - reflexivity.
  - destruct s as [|e s], idx as [|x idx]; simpl in *; try lia.
    unfold insert_at in *. simpl. f_equal. apply IH; lia.
Qed.

Lemma getitem_index_new_axis k : forall idx i,
  (k <= length idx)%nat ->
  getitem_index (repeat Colon k ++ [NewAxis]) (insert_at k i idx) = idx.
Proof.
  induction k as [|k IH]; intros idx i H.
  - unfold insert_at. simpl. destruct idx; reflexivity.
  - destruct idx as [|x idx]; simpl in H; [lia|].
    unfold insert_at in *. simpl. f_equal. apply IH. lia.
Qed.

Lemma getitem_shape_new_axis k : forall s r,
  getitem_shape (repeat Colon k ++ [NewAxis]) s = Ok r ->
  (k <= length s)%nat /\ r = insert_at k 1%nat s.
Proof.
  induction k as [|k IH]; intros s r H.
  - simpl in H. inversion H. split; [lia | reflexivity].
  - destruct s as [|d s]; simpl in H; [discriminate|].
    destruct (getitem_shape (repeat Colon k ++ [NewAxis]) s) as [r'|] eqn:E;
      [|discriminate].
    simpl in H. inversion H. destruct (IH _ _ E) as [Hk ->].
    split; [simpl; lia | reflexivity].
Qed.

Lemma bc_dim_one d : bc_dim d 1 = Ok d.
Proof.
  unfold bc_dim. destruct (Nat.eqb_spec d 1); [subst; reflexivity|].
  reflexivity.
Qed.

Lemma bc_dims_insert_at k : forall x y d,
  (k <= length x)%nat -> length y = length x ->
  bc_dims (insert_at k d x) (insert_at k 1%nat y)
  = bind (bc_dims x y) (fun t => Ok (insert_at k d t)).
Proof.
  induction k as [|k IH]; intros x y d Hk Hl.
  - rewrite !insert_at_0. simpl. rewrite bc_dim_one. simpl.
    destruct (bc_dims x y) as [t|]; simpl; [rewrite insert_at_0|]; reflexivity.
  - destruct x as [|a x], y as [|b y]; simpl in Hk, Hl; try lia.
    rewrite !insert_at_S. simpl. rewrite IH by lia.
    destruct (bc_dim a b); [|reflexivity]. simpl.
    destruct (bc_dims x y); reflexivity.
Qed.


End NpFacts.

(** ** The derivation notebook *)

Module DerivationFacts.

Import Np Derivation LnBoundFacts NpFacts.
Open Scope np_scope.
Open Scope R_scope.

(** *** [expect_diff] as a sum *)

Lemma expect_diff_eq j a b s t :
  broadcast_shapes (shape a) (shape b) = Ok s ->
  broadcast_shapes (shape j) s = Ok t ->
  expect_diff j a b
  = Ok (sum_over t (fun idx =>
          item j (bindex (shape j) idx)
          * (ln (item a (bindex (shape a) (bindex s idx)))
             - ln (item b (bindex (shape b) (bindex s idx)))))).
Proof.
  intros H1 H2.
  unfold expect_diff, lift2, multiply, subtract, map2. simpl.
  rewrite H1. simpl. rewrite H2. reflexivity.
Qed.

Lemma expect_diff_raise_1 j a b e :
  broadcast_shapes (shape a) (shape b) = Raise e ->
  expect_diff j a b = Raise e.
Proof.
  intros H1.
  unfold expect_diff, lift2, multiply, subtract, map2. simpl.
  rewrite H1. reflexivity.
Qed.

Lemma expect_diff_raise_2 j a b s e :
  broadcast_shapes (shape a) (shape b) = Ok s ->
  broadcast_shapes (shape j) s = Raise e ->
  expect_diff j a b = Raise e.
Proof.
  intros H1 H2.
  unfold expect_diff, lift2, multiply, subtract, map2. simpl.
  rewrite H1. simpl. rewrite H2. reflexivity.
Qed.

(** Evaluation of a notebook cell down to arithmetic on the reals. *)
Ltac np_eval :=
  cbv -[Rplus Rmult Rminus Rdiv Rinv Ropp ln IZR Rlt Rle Rgt Rge Rabs pow].

Ltac ln_bound e H :=
  first
    [ pose proof (ln_06 e ltac:(lra)) as H
    | pose proof (ln_04 e ltac:(lra)) as H
    | pose proof (ln_046 e ltac:(lra)) as H
    | pose proof (ln_054 e ltac:(lra)) as H
    | pose proof (ln_02 e ltac:(lra)) as H
    | pose proof (ln_08 e ltac:(lra)) as H
    | pose proof (ln_0524 e ltac:(lra)) as H
    | pose proof (ln_0476 e ltac:(lra)) as H
    | pose proof (ln_044 e ltac:(lra)) as H
    | pose proof (ln_056 e ltac:(lra)) as H
    | pose proof (ln_1_7 e ltac:(field)) as H
    | pose proof (ln_23_131 e ltac:(field)) as H
    | pose proof (ln_27_119 e ltac:(field)) as H
    | pose proof (ln_3_11 e ltac:(field)) as H
    | pose proof (ln_8_11 e ltac:(field)) as H
    | pose proof (ln_92_119 e ltac:(field)) as H
    | pose proof (ln_108_131 e ltac:(field)) as H
    | pose proof (ln_6_7 e ltac:(field)) as H ].

(** Replace every logarithm of the goal by a variable known to lie between
    its certified bounds. *)
Ltac ln_abstract :=
  repeat match goal with
  | |- context [ln ?e] =>
      let H := fresh "Hln" in
      let l := fresh "l" in
      ln_bound e H; set (l := ln e) in *; clearbody l
  end.

(** Bring the argument of every logarithm to the form of the literal [c]. *)
Ltac ln_arg c :=
  repeat match goal with
  | |- context [ln ?e] =>
      tryif constr_eq e c then fail else (replace e with c by lra)
  end.

Ltac ln_args :=
  ln_arg 0.6; ln_arg 0.4; ln_arg 0.46; ln_arg 0.54; ln_arg 0.2; ln_arg 0.8;
  ln_arg 0.524; ln_arg 0.476; ln_arg 0.44; ln_arg 0.56.

Ltac bounds := repeat split; try apply Rabs_def1; lra.

(** C1: for the chain with p(X1) = [0.3, 0.7], p(X2|X1) = [[0.6, 0.4],
    [0.4, 0.6]], p(X3|X2) = [[0.2, 0.8], [0.8, 0.2]] and interventions drawn
    from [0.5, 0.5], the notebook's cell 11, [expect_diff(p_interv_1_2,
    p_2_1, p_2[None,:])], raises nothing; its value is the sum over (x1, x2)
    of p(do(X1) = x1, X2 = x2) * (log p(x2|x1) - log p(x2)); it is strictly
    positive, lies between 0.0233 and 0.0234, and is within 1e-15 of the
    notebook's output 0.023345797452150232. *)
Theorem contrast_x1_x2_under_do_x1 :
  exists v,
    out_11 = Ok v
    /\ v = 0.5 * 0.6 * (ln 0.6 - ln 0.46) + 0.5 * 0.4 * (ln 0.4 - ln 0.54)
         + 0.5 * 0.4 * (ln 0.4 - ln 0.46) + 0.5 * 0.6 * (ln 0.6 - ln 0.54)
    /\ 0 < v
    /\ 0.0233 < v < 0.0234
    /\ Rabs (v - 0.023345797452150232) < 1e-15.
Proof.
  eexists. split; [np_eval; reflexivity|]. split.
  - ln_args. lra.
  - ln_abstract. bounds.
Qed.

(** C2: the contrast for the edge X1 -> X2 under interventions on the third
    variable X3, the notebook's cell 16, [expect_diff(p_interv_3_1_2,
    p_2_1[None,:,:], p_2[None,None,:])], is the expectation under
    p(do(X3), X1, X2) of log p(X2|X1) - log p(X2); it is strictly positive
    and within 1e-15 of the notebook's output 0.016932091449143066. *)
Theorem contrast_x1_x2_under_do_x3 :
  exists v,
    out_16 = Ok v
    /\ v = 0.5 * (0.3 * 0.6 * (ln 0.6 - ln 0.46) + 0.3 * 0.4 * (ln 0.4 - ln 0.54)
                  + 0.7 * 0.4 * (ln 0.4 - ln 0.46) + 0.7 * 0.6 * (ln 0.6 - ln 0.54))
         + 0.5 * (0.3 * 0.6 * (ln 0.6 - ln 0.46) + 0.3 * 0.4 * (ln 0.4 - ln 0.54)
                  + 0.7 * 0.4 * (ln 0.4 - ln 0.46) + 0.7 * 0.6 * (ln 0.6 - ln 0.54))
    /\ 0 < v
    /\ Rabs (v - 0.016932091449143066) < 1e-15.
Proof.
  eexists. split; [np_eval; reflexivity|]. split.
  - ln_args. lra.
  - ln_abstract. bounds.
Qed.


(** The remaining outputs of the notebook, each within 1e-15 of the printed
    number: the embedding reproduces the derivation, transposed operands
    included. *)
Lemma notebook_outputs :
  (exists v, out_13 = Ok v /\ Rabs (v - 0.014975087998617024) < 1e-15)
  /\ (exists v, out_15 = Ok v /\ Rabs (v - 0.02334579745215022) < 1e-15)
  /\ (exists v, out_19 = Ok v /\ Rabs (v - 0.19389808616771806) < 1e-15)
  /\ (exists v, out_21 = Ok v /\ Rabs (v - 0.19999710012319816) < 1e-15)
  /\ (exists v, out_22 = Ok v /\ Rabs (v - 0.19389808616771811) < 1e-15)
  /\ (exists v, out_23 = Ok v /\ Rabs (v - 0.1938980861677181) < 1e-15)
  /\ (exists v, out_25 = Ok v /\ Rabs (v - 0.1855273767141849) < 1e-15)
  /\ (exists v, out_17 = Ok v /\ Rabs (v - 0.020138944450646644) < 1e-15)
  /\ (exists v, out_24 = Ok v /\ Rabs (v - 0.1938980861677181) < 1e-15)
  /\ (exists v, out_27 = Ok v /\ Rabs (v - 0.19276223841869153) < 1e-15).
Proof.
  repeat split;
    (eexists; split; [np_eval; reflexivity | ln_abstract; bounds]).
Qed.

(** The intermediate arrays of cells 5, 7 and 28, as the notebook prints
    them. *)
Lemma notebook_arrays :
  (exists a, p_2 = Ok a /\ shape a = [2%nat]
             /\ item a [0%nat] = 0.46 /\ item a [1%nat] = 0.54)
  /\ (exists a, p_3 = Ok a /\ shape a = [2%nat]
                /\ item a [0%nat] = 0.524 /\ item a [1%nat] = 0.476)
  /\ (exists a, p_3_1 = Ok a /\ shape a = [2%nat; 2%nat]
                /\ item a [0%nat; 0%nat] = 0.44 /\ item a [0%nat; 1%nat] = 0.56
                /\ item a [1%nat; 0%nat] = 0.56 /\ item a [1%nat; 1%nat] = 0.44)
  /\ (exists a, p_interv_1_3 = Ok a /\ shape a = [2%nat; 2%nat]
                /\ item a [0%nat; 0%nat] = 0.22 /\ item a [0%nat; 1%nat] = 0.28
                /\ item a [1%nat; 0%nat] = 0.28 /\ item a [1%nat; 1%nat] = 0.22)
  /\ (exists a, p_joint = Ok a /\ shape a = [2%nat; 2%nat; 2%nat]
                /\ sum a = 1).
Proof.
  repeat split;
    (eexists; split; [np_eval; reflexivity|]; repeat split;
     try reflexivity; np_eval; lra).
Qed.

(** In exact arithmetic: for nonnegative weights [j] and strictly positive
    [a] and [b] whose shapes broadcast together, [expect_diff j a a] is 0
    and [expect_diff j b a] is the negation of [expect_diff j a b]; none of
    the three calls raises.  The same over binary64 numbers is in
    [Binary64Facts]. *)
Lemma expect_diff_antisymmetric_exact (j a b : ndarray) (s t : list nat) :
  nonnegative j -> positive a -> positive b ->
  broadcast_shapes (shape a) (shape b) = Ok s ->
  broadcast_shapes (shape j) s = Ok t ->
  expect_diff j a a = Ok 0
  /\ exists v, expect_diff j a b = Ok v /\ expect_diff j b a = Ok (- v).
Proof.
  intros _ _ _ H1 H2. split.
  - destruct (broadcast_shapes_left _ _ _ _ _ H1 H2) as [t' Ht'].
    rewrite (expect_diff_eq j a a (shape a) t'
               (broadcast_shapes_self _) Ht').
    f_equal. rewrite <- (sum_over_zero t').
    apply sum_over_ext. intros idx _. ring.
  - eexists. split; [apply (expect_diff_eq j a b s t H1 H2)|].
    rewrite broadcast_shapes_comm in H1.
    rewrite (expect_diff_eq j b a s t H1 H2).
    f_equal. rewrite <- sum_over_opp.
    apply sum_over_ext. intros idx _. ring.
Qed.

(** In exact arithmetic, summing an axis out of the weights changes
    nothing: when both likelihood arrays have
    length one along axis [k], written [a[:,...,None]] with the new axis at
    position [k], the contrast under [J] is the contrast under
    [J.sum(axis=k)] with the axis dropped from the likelihoods; when one
    call raises, so does the other. *)
Lemma expect_diff_sum_axis (J a b a' b' J' : ndarray) (k : nat) :
  nonnegative J -> positive a -> positive b ->
  ndim a = ndim b -> ndim J = S (ndim a) ->
  getitem (repeat Colon k ++ [NewAxis]) a = Ok a' ->
  getitem (repeat Colon k ++ [NewAxis]) b = Ok b' ->
  sum_axis k J = Ok J' ->
  expect_diff J a' b' = expect_diff J' a b.
Proof.
  intros _ _ _ Hab HJ Ha' Hb' HJ'.
  unfold ndim in *.
  unfold getitem in Ha', Hb'.
  destruct (getitem_shape _ (shape a)) as [sa'|] eqn:Esa; [|discriminate].
  destruct (getitem_shape _ (shape b)) as [sb'|] eqn:Esb; [|discriminate].
  apply getitem_shape_new_axis in Esa, Esb.
  destruct Esa as [Hka ->], Esb as [Hkb ->].
  simpl in Ha', Hb'.
  assert (Sa : shape a' = insert_at k 1%nat (shape a))
    by (inversion Ha'; reflexivity).
  assert (Sb : shape b' = insert_at k 1%nat (shape b))
    by (inversion Hb'; reflexivity).
  assert (Ia : forall idx, item a' idx
                 = item a (getitem_index (repeat Colon k ++ [NewAxis]) idx))
    by (inversion Ha'; reflexivity).
  assert (Ib : forall idx, item b' idx
                 = item b (getitem_index (repeat Colon k ++ [NewAxis]) idx))
    by (inversion Hb'; reflexivity).
  clear Ha' Hb'.
  unfold sum_axis, ndim in HJ'.
  destruct (Nat.ltb_spec k (length (shape J))) as [HkJ|]; [|discriminate].
  set (d := nth k (shape J) 0%nat) in *.
  set (sJ' := remove_at k (shape J)) in *.
  assert (SJ : shape J' = sJ') by (inversion HJ'; reflexivity).
  assert (IJ : forall idx, item J' idx
                 = sum_range d (fun i => item J (insert_at k i idx)))
    by (inversion HJ'; reflexivity).
  clear HJ'.
  assert (EJ : shape J = insert_at k d sJ')
    by (symmetry; apply insert_remove; exact HkJ).
  assert (LJ' : length sJ' = length (shape a)).
  { pose proof (remove_at_length k (shape J) HkJ) as H. fold sJ' in H. lia. }
  assert (Bab : broadcast_shapes (shape a') (shape b')
                = bind (bc_dims (shape a) (shape b))
                    (fun t => Ok (insert_at k 1%nat t))).
  { rewrite Sa, Sb. rewrite broadcast_shapes_same_rank
      by (rewrite !insert_at_length by lia; lia).
    apply bc_dims_insert_at; lia. }
  assert (Bab' : broadcast_shapes (shape a) (shape b)
                 = bc_dims (shape a) (shape b))
    by (apply broadcast_shapes_same_rank; exact Hab).
  destruct (bc_dims (shape a) (shape b)) as [S0|e] eqn:ES0; simpl in Bab.
  2:{ rewrite (expect_diff_raise_1 _ _ _ e Bab).
      rewrite (expect_diff_raise_1 _ _ _ e Bab'). reflexivity. }
  destruct (bc_dims_length _ _ _ ES0) as [_ LS0].
  assert (BJ : broadcast_shapes (shape J) (insert_at k 1%nat S0)
               = bind (bc_dims sJ' S0) (fun t => Ok (insert_at k d t))).
  { rewrite broadcast_shapes_same_rank
      by (rewrite insert_at_length by lia; lia).
    rewrite EJ. apply bc_dims_insert_at; lia. }
  assert (BJ' : broadcast_shapes (shape J') S0 = bc_dims sJ' S0)
    by (rewrite SJ; apply broadcast_shapes_same_rank; lia).
  destruct (bc_dims sJ' S0) as [T0|e] eqn:ET0; simpl in BJ.
  2:{ rewrite (expect_diff_raise_2 _ _ _ _ e Bab BJ).
      rewrite (expect_diff_raise_2 _ _ _ _ e Bab' BJ'). reflexivity. }
  destruct (bc_dims_length _ _ _ ET0) as [_ LT0].
  rewrite (expect_diff_eq _ _ _ _ _ Bab BJ).
  rewrite (expect_diff_eq _ _ _ _ _ Bab' BJ').
  f_equal. rewrite sum_over_insert_at by lia.
  apply sum_over_ext. intros idx Hidx.
  apply In_shape_length in Hidx.
  rewrite IJ, <- sum_range_scal. apply sum_range_ext. intros i Hi.
  assert (LY : length (clamp S0 idx) = length S0) by (apply clamp_length; lia).
  rewrite Ia, Ib, Sa, Sb, SJ.
  rewrite (bindex_same_length (shape J))
    by (rewrite insert_at_length by lia; lia).
  rewrite (bindex_same_length (insert_at k 1%nat S0))
    by (rewrite !insert_at_length by lia; lia).
  rewrite (bindex_same_length sJ') by lia.
  rewrite (bindex_same_length S0) by lia.
  rewrite (clamp_insert_at k S0) by lia. simpl.
  rewrite !bindex_same_length
    by (rewrite ?insert_at_length by lia; lia).
  rewrite !clamp_insert_at by lia. simpl.
  rewrite !getitem_index_new_axis by (rewrite clamp_length by lia; lia).
  rewrite EJ at 1. rewrite clamp_insert_at by lia.
  destruct (Nat.eqb_spec d 1) as [Hd|Hd]; [|reflexivity].
  replace i with 0%nat by lia. reflexivity.
Qed.



End DerivationFacts.

(** ** The adjacency sampler *)

Module SamplerFacts.

Import Rng Sampler.

Lemma get_set_ne (A : adjacency) i j v a b :
  (a, b) ≠ (i, j) -> get (set A i j v) a b = get A a b.
Proof.
  intros Hne. unfold get, set.
  destruct (decide (a = i)) as [->|Hai].
  - rewrite list_lookup_alter_eq.
    destruct (A !! i) as [row|]; simpl; [|reflexivity].
    rewrite list_lookup_insert_ne by congruence. reflexivity.
  - rewrite list_lookup_alter_ne by congruence. reflexivity.
Qed.

Lemma set_length (A : adjacency) i j v : length (set A i j v) = length A.
Proof. unfold set. apply length_alter. Qed.

Lemma set_rows n (A : adjacency) i j v :
  Forall (λ row, length row = n) A ->
  Forall (λ row, length row = n) (set A i j v).
Proof.
  intros H. unfold set. apply Forall_alter; [exact H|].
  intros row _ Hrow. rewrite length_insert. exact Hrow.
Qed.

Lemma sample_pair_spec p A g i j :
  exists src dst e g',
    sample_pair p (A, g) (i, j) = (set A src dst e, g')
    /\ ((src, dst) = (i, j) \/ (src, dst) = (j, i)).
Proof.
  unfold sample_pair, uniform.
  destruct (bernoulli _ _); eauto 10.
Qed.

Lemma fold_exclusive p : forall l A g,
  (forall i j, (i, j) ∈ l -> (i < j)%nat) -> NoDup l ->
  (forall a b, get A a b = true ->
               a ≠ b /\ get A b a = false /\ key a b ∉ l) ->
  forall a b, get (fold_left (sample_pair p) l (A, g)).1 a b = true ->
              a ≠ b
              /\ get (fold_left (sample_pair p) l (A, g)).1 b a = false.
Proof.
  induction l as [|[i j] l IH]; intros A g Hlt Hnd Hinv a b;
    cbn [fold_left].
  - intros H. destruct (Hinv a b H) as (? & ? & _). auto.
  - destruct (sample_pair_spec p A g i j) as (src & dst & e & g' & -> & Hsd).
    assert (Hij : (i < j)%nat) by (apply Hlt; left).
    apply NoDup_cons in Hnd. destruct Hnd as [Hnotin Hnd].
    assert (Hkey : key src dst = (i, j)).
    { unfold key. destruct Hsd as [[= -> ->]|[= -> ->]]; f_equal; lia. }
    assert (Hneq : src ≠ dst) by (destruct Hsd as [[= -> ->]|[= -> ->]]; lia).
    apply IH; [intros; apply Hlt; right; assumption | exact Hnd |].
    clear a b. intros a b Hab.
    destruct (decide ((a, b) = (src, dst))) as [[= -> ->]|Hne].
    + split; [exact Hneq|]. split.
      * rewrite get_set_ne by congruence.
        destruct (get A dst src) eqn:E; [|reflexivity].
        destruct (Hinv _ _ E) as (_ & _ & Hk). exfalso. apply Hk.
        replace (key dst src) with (key src dst)
          by (unfold key; f_equal; lia).
        rewrite Hkey. left.
      * rewrite Hkey. exact Hnotin.
    + rewrite get_set_ne in Hab by exact Hne.
      destruct (Hinv _ _ Hab) as (Hab' & Hba & Hk).
      assert (Hk' : key a b ≠ (i, j)) by (intros E; apply Hk; rewrite E; left).
      split; [exact Hab'|]. split.
      * rewrite get_set_ne; [exact Hba|].
        intros [= -> ->]. apply Hk'. rewrite <- Hkey.
        unfold key; f_equal; lia.
      * intros Hin. apply Hk. right. exact Hin.
Qed.

Lemma fold_dims p n : forall l A g,
  length A = n -> Forall (λ row, length row = n) A ->
  length (fold_left (sample_pair p) l (A, g)).1 = n
  /\ Forall (λ row, length row = n) (fold_left (sample_pair p) l (A, g)).1.
Proof.
  induction l as [|[i j] l IH]; intros A g HA Hrows;
    cbn [fold_left]; [auto|].
  destruct (sample_pair_spec p A g i j) as (src & dst & e & g' & -> & _).
  apply IH; [rewrite set_length; exact HA | apply set_rows; exact Hrows].
Qed.

Lemma pairs_lt n i j : (i, j) ∈ pairs n -> (i < j)%nat.
Proof.
  unfold pairs. intros H. apply list_elem_of_bind in H.
  destruct H as (i' & H & _). apply list_elem_of_fmap in H.
  destruct H as (j' & [= -> ->] & H). apply elem_of_seq in H. lia.
Qed.

Lemma pairs_NoDup n : NoDup (pairs n).
Proof.
  unfold pairs. apply NoDup_bind.
  - intros i1 i2 [a b] _ _ H1 H2.
    apply list_elem_of_fmap in H1, H2.
    destruct H1 as (? & [= -> ->] & _), H2 as (? & [= -> _] & _). reflexivity.
  - intros i _. apply NoDup_fmap_2; [|apply NoDup_seq].
    intros x y [= ->]. reflexivity.
  - apply NoDup_seq.
Qed.

Lemma get_no_edges n i j : get (no_edges n) i j = false.
Proof.
  unfold get, no_edges.
  destruct (replicate n (replicate n false) !! i) as [row|] eqn:E;
    [|reflexivity].
  apply lookup_replicate in E. destruct E as [-> _]. simpl.
  destruct (replicate n false !! j) as [x|] eqn:E'; [|reflexivity].
  apply lookup_replicate in E'. destruct E' as [-> _]. reflexivity.
Qed.

(** C4: for every number of variables (so for every N >= 2), every setting
    of the existence and orientation logits and every outcome of the random
    draws, the matrix [A] that [sample_hypothesis] returns is N x N, never
    has both [A[i,j]] and [A[j,i]] set, and has an empty diagonal. *)
Theorem sample_hypothesis_exclusive (p : edge_params) (g : rng) :
  let A := (sample_hypothesis p g).1 in
  length A = num_vars p
  /\ Forall (λ row, length row = num_vars p) A
  /\ forall i j, get A i j && get A j i = false /\ get A i i = false.
Proof.
  intros A. unfold A, sample_hypothesis.
  assert (H : forall a b,
             get (fold_left (sample_pair p) (pairs (num_vars p))
                    (no_edges (num_vars p), g)).1 a b = true ->
             a ≠ b
             /\ get (fold_left (sample_pair p) (pairs (num_vars p))
                       (no_edges (num_vars p), g)).1 b a = false).
  { apply fold_exclusive.
    - intros i j. apply pairs_lt.
    - apply pairs_NoDup.
    - intros a b Hab. rewrite get_no_edges in Hab. discriminate. }
  destruct (fold_dims p (num_vars p) (pairs (num_vars p))
              (no_edges (num_vars p)) g) as [HL HR].
  { unfold no_edges. apply length_replicate. }
  { unfold no_edges. apply Forall_replicate. apply length_replicate. }
  split; [exact HL|]. split; [exact HR|].
  intros i j. split.
  - destruct (get _ i j) eqn:E; [|reflexivity].
    destruct (H _ _ E) as [_ ->]. reflexivity.
  - destruct (get _ i i) eqn:E; [|reflexivity].
    destruct (H _ _ E) as [Hne _]. congruence.
Qed.


Open Scope R_scope.

Lemma sigmoid_0 : sigmoid 0 = 1 / 2.
Proof.
  unfold sigmoid. rewrite Ropp_0, exp_0. lra.
Qed.

Lemma bernoulli_lt p u : u < p -> bernoulli p u = true.
Proof.
  intros H. unfold bernoulli. destruct (Rlt_dec u p); [reflexivity|contradiction].
Qed.

(** The sampler does draw edges: with all logits at 0 and every uniform
    number equal to 1/4, two variables get the edge 0 -> 1. *)
Example sample_hypothesis_draws_edge :
  (sample_hypothesis (EdgeParams 2 (fun _ _ => 0) (fun _ _ => 0))
     (MkRng (fun _ => 1 / 4) 0)).1
  = [[false; true]; [false; false]].
Proof.
  unfold sample_hypothesis, pairs. cbn -[bernoulli sigmoid].
  rewrite !sigmoid_0, !bernoulli_lt by lra. reflexivity.
Qed.

End SamplerFacts.

(** ** The two phases *)

Module OptimizerFacts.

Import Rng Sampler Optimizer.

Section PhaseFacts.
Variable Model : Type.
Variable Batch : Type.
Variable draw_batch : rng -> Batch * rng.
Variable fit_step : nat -> adjacency -> Batch -> Model -> Model.
Variable graph_step : edge_params -> list Model -> rng -> edge_params * rng.

Lemma phase_a_step_frame (st : state Model) :
  graph_params Model (phase_a_step Model Batch draw_batch fit_step st)
  = graph_params Model st.
Proof.
  unfold phase_a_step.
  destruct (sample_hypothesis _ _) as [A g1].
  destruct (draw_batch g1) as [batch g2]. reflexivity.
Qed.

Lemma phase_a_frame steps (st : state Model) :
  graph_params Model (phase_a Model Batch draw_batch fit_step steps st)
  = graph_params Model st.
Proof.
  induction steps as [|k IH]; [reflexivity|].
  unfold phase_a in *. simpl. rewrite phase_a_step_frame. exact IH.
Qed.

Lemma phase_b_frame steps (st : state Model) :
  models Model (phase_b Model graph_step steps st) = models Model st.
Proof.
  induction steps as [|k IH]; [reflexivity|].
  unfold phase_b in *. simpl. unfold phase_b_step at 1.
  destruct (graph_step _ _ _). simpl. exact IH.
Qed.

(** C6: running Phase A twice in succession, for any numbers of inner
    steps and with no Phase B step in between, leaves the graph parameters,
    the existence logits and the orientation logits, exactly as they were:
    Phase A never writes them. *)
Theorem phase_a_twice_keeps_logits (steps1 steps2 : nat) (st : state Model) :
  let st' := phase_a Model Batch draw_batch fit_step steps2
               (phase_a Model Batch draw_batch fit_step steps1 st) in
  graph_params Model st' = graph_params Model st
  /\ existence_logit (graph_params Model st')
     = existence_logit (graph_params Model st)
  /\ orientation_logit (graph_params Model st')
     = orientation_logit (graph_params Model st).
Proof.
  intros st'. assert (H : graph_params Model st' = graph_params Model st).
  { unfold st'. rewrite !phase_a_frame. reflexivity. }
  rewrite H. auto.
Qed.

End PhaseFacts.

End OptimizerFacts.

(** ** The interventional data source *)

Module DataSourceFacts.

Import Rng DataSource.

(** *** The random stream *)

Lemma draws_spec n : forall g,
  (draws n g).2 = MkRng (stream g) (pos g + n)
  /\ length (draws n g).1 = n
  /\ forall b, b < n -> (draws n g).1 !! b = Some (stream g (pos g + b)).
Proof.
  induction n as [|n IH]; intros g; simpl.
  - split; [destruct g; simpl; f_equal; lia|]. split; [reflexivity|].
    intros b Hb. lia.
  - specialize (IH (MkRng (stream g) (S (pos g)))).
    destruct (draws n _) as [us g2]. simpl in *.
    destruct IH as (E & L & N). split; [rewrite E; f_equal; lia|].
    split; [lia|].
    intros [|b] Hb; simpl.
    + f_equal. f_equal. lia.
    + rewrite N by lia. f_equal. f_equal. lia.
Qed.

(** *** One variable *)

Lemma parent_vals_spec (vals : gmap string (list nat)) ps b n :
  (forall p, p ∈ ps -> exists pc, vals !! p = Some pc /\ length pc = n) ->
  b < n ->
  Forall2 (fun p x => exists pc, vals !! p = Some pc /\ pc !! b = Some x)
    ps (parent_vals vals ps b).
Proof.
  intros H Hb. unfold parent_vals.
  induction ps as [|p ps IH]; simpl; constructor.
  - destruct (H p) as (pc & E & L); [left|].
    exists pc. split; [exact E|]. rewrite E. simpl.
    destruct (lookup_lt_is_Some_2 pc b) as [x Hx]; [lia|].
    rewrite Hx. f_equal. symmetry. apply nth_lookup_Some. exact Hx.
  - apply IH. intros q Hq. apply H. right. exact Hq.
Qed.

Lemma sample_var_spec n itv vals g v :
  exists col g',
    sample_var n itv (vals, g) v = (<[name v := col]> vals, g')
    /\ stream g' = stream g
    /\ pos g' = pos g + n * (if stochastic itv v then 1 else 0)
    /\ length col = n
    /\ forall b, b < n ->
         col !! b
         = Some (match itv !! name v with
                 | Some (Perfect c) => c
                 | Some (Imperfect d) => d (stream g (pos g + b))
                 | None =>
                     mechanism v (parent_vals vals (parents v) b)
                       (stream g (pos g + b))
                 end).
Proof.
  unfold sample_var, stochastic.
  destruct (draws_spec n g) as (E & L & N).
  destruct (itv !! name v) as [[c|d]|].
  - eexists _, _. split; [reflexivity|]. split; [reflexivity|].
    split; [lia|]. split; [apply length_replicate|].
    intros b Hb. apply lookup_replicate_2. exact Hb.
  - destruct (draws n g) as [us g']. simpl in *. subst g'.
    eexists _, _. split; [reflexivity|]. split; [reflexivity|].
    split; [simpl; lia|]. split; [rewrite length_fmap; exact L|].
    intros b Hb. rewrite list_lookup_fmap, N by exact Hb. reflexivity.
  - destruct (draws n g) as [us g']. simpl in *. subst g'.
    eexists _, _. split; [reflexivity|]. split; [reflexivity|].
    split; [simpl; lia|].
    split; [unfold from_mechanism; rewrite length_imap; exact L|].
    intros b Hb. unfold from_mechanism.
    rewrite list_lookup_imap, N by exact Hb. reflexivity.
Qed.

(** *** The visit, variable by variable *)

Lemma ordered_mono l : forall done done',
  (forall p, p ∈ done -> p ∈ done') -> ordered done l -> ordered done' l.
Proof.
  induction l as [|v l IH]; intros done done' H; simpl; [tauto|].
  intros [Hp Ho]. split; [auto|].
  apply (IH (name v :: done)); [|exact Ho].
  intros p Hp'. apply elem_of_cons in Hp'. apply elem_of_cons.
  destruct Hp' as [->|Hp']; auto.
Qed.

Lemma fold_sample_var n itv : forall l done vals0 g0,
  NoDup (name <$> l) ->
  (forall x, x ∈ (name <$> l) -> vals0 !! x = None) ->
  ordered done l ->
  (forall p, p ∈ done ->
             exists pc, vals0 !! p = Some pc /\ length pc = n) ->
  exists vals g',
    fold_left (sample_var n itv) l (vals0, g0) = (vals, g')
    /\ dom vals = dom vals0 ∪ list_to_set (name <$> l)
    /\ (forall x, x ∉ (name <$> l) -> vals !! x = vals0 !! x)
    /\ stream g' = stream g0
    /\ pos g' = pos g0 + n * drawn itv l
    /\ forall k v, l !! k = Some v ->
         exists col,
           vals !! name v = Some col /\ length col = n
           /\ forall b, b < n ->
                exists pvals,
                  Forall2 (fun p x => exists pc, vals !! p = Some pc
                                                 /\ pc !! b = Some x)
                    (parents v) pvals
                  /\ col !! b
                     = Some (match itv !! name v with
                             | Some (Perfect c) => c
                             | Some (Imperfect d) =>
                                 d (stream g0
                                      (pos g0 + n * drawn itv (take k l) + b))
                             | None =>
                                 mechanism v pvals
                                   (stream g0
                                      (pos g0 + n * drawn itv (take k l) + b))
                             end).
Proof.
  induction l as [|v l IH]; intros done vals0 g0 Hnd Hfresh Hord Hdone;
    cbn [fold_left].
  - exists vals0, g0. split; [reflexivity|].
    split; [simpl; rewrite union_empty_r_L; reflexivity|].
    split; [reflexivity|]. split; [reflexivity|].
    split; [simpl; lia|]. intros k v Hk. rewrite lookup_nil in Hk.
    discriminate.
  - rewrite fmap_cons in Hnd, Hfresh. apply NoDup_cons in Hnd.
    destruct Hnd as [Hv Hnd]. destruct Hord as [Hpar Hord].
    destruct (sample_var_spec n itv vals0 g0 v)
      as (col & g1 & -> & Hs1 & Hp1 & Hlen & Hcol).
    destruct (IH (name v :: done) (<[name v := col]> vals0) g1 Hnd)
      as (vals & g' & E & Hdom & Hout & Hs & Hp & Hin).
    { intros x Hx. rewrite lookup_insert_ne; [|intros <-; contradiction].
      apply Hfresh. right. exact Hx. }
    { exact Hord. }
    { intros p Hp. apply elem_of_cons in Hp. destruct Hp as [->|Hp].
      - exists col. rewrite lookup_insert_eq. auto.
      - destruct (Hdone p Hp) as (pc & Epc & Lpc). exists pc.
        rewrite lookup_insert_ne; [auto|].
        intros <-. rewrite Hfresh in Epc; [discriminate | left]. }
    exists vals, g'. split; [exact E|].
    split.
    { rewrite Hdom, dom_insert_L, fmap_cons. simpl.
      rewrite (union_comm_L {[name v]} (dom vals0)).
      rewrite <- union_assoc_L. reflexivity. }
    split.
    { intros x Hx. rewrite fmap_cons in Hx. apply not_elem_of_cons in Hx.
      destruct Hx as [Hx1 Hx2]. rewrite (Hout x Hx2).
      apply lookup_insert_ne. congruence. }
    split; [congruence|].
    split.
    { rewrite Hp, Hp1. simpl. destruct (stochastic itv v); lia. }
    intros k w Hk. destruct k as [|k]; simpl in Hk.
    + inversion Hk; subst w. exists col.
      split; [rewrite (Hout _ Hv); apply lookup_insert_eq|].
      split; [exact Hlen|]. intros b Hb.
      exists (parent_vals vals0 (parents v) b). split.
      * assert (Hpv : forall p, p ∈ parents v ->
                  exists pc, vals0 !! p = Some pc /\ length pc = n)
          by (intros p Hp'; apply Hdone, Hpar, Hp').
        pose proof (parent_vals_spec vals0 (parents v) b n Hpv Hb) as F.
        eapply Forall2_impl; [exact F|]. cbv beta.
        intros p x (pc & Epc & Ex). exists pc. split; [|exact Ex].
        rewrite Hout.
        -- rewrite lookup_insert_ne; [exact Epc|].
           intros <-. rewrite Hfresh in Epc; [discriminate | left].
        -- intros Hin'. rewrite Hfresh in Epc; [discriminate|].
           right. exact Hin'.
      * rewrite (Hcol b Hb). simpl. rewrite Nat.mul_0_r, Nat.add_0_r.
        reflexivity.
    + destruct (Hin k w Hk) as (colw & Ew & Lw & Hw).
      exists colw. split; [exact Ew|]. split; [exact Lw|].
      intros b Hb. destruct (Hw b Hb) as (pvals & F & Ecol).
      exists pvals. split; [exact F|].
      rewrite Ecol, Hs1, Hp1. cbn [take drawn].
      replace (pos g0 + n * (if stochastic itv v then 1 else 0)
               + n * drawn itv (take k l) + b)
        with (pos g0
              + n * ((if stochastic itv v then 1 else 0)
                     + drawn itv (take k l)) + b)
        by (destruct (stochastic itv v); lia).
      reflexivity.
Qed.

(** *** The ancestral order *)

Lemma ready_spec done v :
  ready done v = true <-> forall p, p ∈ parents v -> p ∈ done.
Proof.
  unfold ready. rewrite forallb_forall. split.
  - intros H p Hp. apply list_elem_of_In in Hp. apply H in Hp.
    apply bool_decide_eq_true in Hp. exact Hp.
  - intros H p Hp. apply list_elem_of_In in Hp. apply H in Hp.
    apply bool_decide_eq_true. exact Hp.
Qed.

Lemma pick_Some done : forall todo v rest,
  pick done todo = Some (v, rest) ->
  ready done v = true
  /\ exists l1 l2, todo = l1 ++ v :: l2 /\ rest = l1 ++ l2.
Proof.
  induction todo as [|u todo IH]; intros v rest H; simpl in H;
    [discriminate|].
  destruct (ready done u) eqn:Eu.
  - inversion H; subst. split; [exact Eu|]. exists [], rest. auto.
  - destruct (pick done todo) as [[w r]|] eqn:Ep; [|discriminate].
    inversion H; subst.
    destruct (IH v r eq_refl) as (Hr & l1 & l2 & -> & ->).
    split; [exact Hr|]. exists (u :: l1), l2. auto.
Qed.

Lemma pick_None done : forall todo,
  pick done todo = None -> forall v, In v todo -> ready done v = false.
Proof.
  induction todo as [|u todo IH]; intros H v Hv; simpl in *; [tauto|].
  destruct (ready done u) eqn:Eu; [discriminate|].
  destruct (pick done todo) as [[w r]|]; [discriminate|].
  destruct Hv as [<-|Hv]; auto.
Qed.

Lemma ancestral_order_sound : forall fuel done todo order,
  ancestral_order_from fuel done todo = Some order ->
  order ≡ₚ todo /\ ordered done order.
Proof.
  induction fuel as [|fuel IH]; intros done todo order H.
  - destruct todo; simpl in H; [|discriminate].
    inversion H; subst. split; [reflexivity | exact I].
  - destruct todo as [|u todo]; simpl in H.
    { inversion H; subst. split; [reflexivity | exact I]. }
    change (match pick done (u :: todo) with
            | Some (v, rest) =>
                match ancestral_order_from fuel (name v :: done) rest with
                | Some order => Some (v :: order)
                | None => None
                end
            | None => None
            end = Some order) in H.
    destruct (pick done (u :: todo)) as [[v rest]|] eqn:Ep; [|discriminate].
    destruct (ancestral_order_from fuel (name v :: done) rest)
      as [order'|] eqn:Eo; [|discriminate].
    inversion H; subst.
    destruct (pick_Some _ _ _ _ Ep) as (Hr & l1 & l2 & E1 & ->).
    destruct (IH _ _ _ Eo) as [Hperm Hord].
    split.
    + rewrite E1. rewrite <- Permutation_middle. constructor. exact Hperm.
    + simpl. split; [apply ready_spec; exact Hr | exact Hord].
Qed.

Lemma ordered_remove l1 : forall done v l2,
  ordered done (l1 ++ v :: l2) -> ordered (name v :: done) (l1 ++ l2).
Proof.
  induction l1 as [|u l1 IH]; intros done v l2; simpl.
  - tauto.
  - intros [Hp Ho]. split.
    + intros p Hp'. right. auto.
    + apply IH in Ho. eapply ordered_mono; [|exact Ho].
      intros p. rewrite !elem_of_cons. tauto.
Qed.

Lemma ancestral_order_complete : forall fuel done todo pi,
  length todo <= fuel -> pi ≡ₚ todo -> ordered done pi ->
  exists order, ancestral_order_from fuel done todo = Some order.
Proof.
  induction fuel as [|fuel IH]; intros done todo pi Hlen Hperm Hord.
  - destruct todo; simpl in *; [eauto | lia].
  - destruct todo as [|u todo]; [simpl; eauto|].
    change (exists order,
              match pick done (u :: todo) with
              | Some (v, rest) =>
                  match ancestral_order_from fuel (name v :: done) rest with
                  | Some order => Some (v :: order)
                  | None => None
                  end
              | None => None
              end = Some order).
    destruct (pick done (u :: todo)) as [[v rest]|] eqn:Ep.
    + destruct (pick_Some _ _ _ _ Ep) as (Hr & l1 & l2 & E1 & ->).
      rewrite E1 in Hperm, Hlen.
      destruct (Permutation_vs_elt_inv _ _ _ Hperm) as (p1 & p2 & ->).
      apply Permutation_app_inv in Hperm.
      apply ordered_remove in Hord.
      destruct (IH (name v :: done) (l1 ++ l2) (p1 ++ p2)) as [order Eo].
      * rewrite length_app in *. simpl in Hlen. lia.
      * exact Hperm.
      * exact Hord.
      * rewrite Eo. eauto.
    + exfalso. destruct pi as [|w pi].
      * apply Permutation_nil_l in Hperm. discriminate.
      * destruct Hord as [Hp _].
        assert (Hw : In w (u :: todo)).
        { apply list_elem_of_In. rewrite <- Hperm. left. }
        pose proof (pick_None _ _ Ep w Hw) as Hn.
        apply ready_spec in Hp. congruence.
Qed.

Lemma walkthrough_graph_is_dag mech : is_dag (walkthrough_graph mech).
Proof.
  exists (walkthrough_graph mech). split; [reflexivity|]. split.
  - unfold walkthrough_graph. simpl. compute_done.
  - unfold walkthrough_graph. simpl.
    repeat split; intros p Hp;
      rewrite ?elem_of_cons, ?elem_of_nil in *; tauto.
Qed.

(** C8: for every description of a directed acyclic graph, in whatever
    order it lists its variables, every batch size and every random
    stream.  With absent or empty interventions [sample] returns the
    observational batch: visiting the variables in an ancestral order,
    every variable is drawn by its own mechanism from the values its
    parents have in the same example, each draw from its own position of
    the random stream.  With interventions on defined variables, a clamped
    variable holds its value throughout, a redrawn variable is drawn from
    its replacement distribution, and every other variable is drawn as in
    the observational case, after its parents.  With an intervention on a
    variable the graph does not define, [sample] raises a configuration
    error. *)
Theorem sample_contract (dag : causal_dag) (n : nat) (g : rng) :
  (is_dag dag ->
   (exists order vals g',
       sample dag n None g = Ok (vals, g')
       /\ sample dag n (Some ∅) g = Ok (vals, g')
       /\ order ≡ₚ dag /\ ancestral order
       /\ batch_of n ∅ g order vals g')
   /\ (forall itv : gmap string intervention,
         dom itv ⊆ names dag ->
         exists order vals g',
           sample dag n (Some itv) g = Ok (vals, g')
           /\ order ≡ₚ dag /\ ancestral order
           /\ batch_of n itv g order vals g'))
  /\ (forall (itv : gmap string intervention) x,
        x ∈ dom itv -> x ∉ names dag ->
        sample dag n (Some itv) g = Raise ConfigurationError).
Proof.
  assert (main : is_dag dag ->
            forall itv : gmap string intervention, dom itv ⊆ names dag ->
            exists order vals g',
              sample dag n (Some itv) g = Ok (vals, g')
              /\ order ≡ₚ dag /\ ancestral order
              /\ batch_of n itv g order vals g').
  { intros (pi & Hperm & Hnd & Hord) itv Hdom. unfold sample. simpl.
    destruct (decide (dom itv ⊆ names dag)) as [_|Hn]; [|contradiction].
    destruct (ancestral_order_complete (length dag) [] dag pi
                (le_n _) Hperm Hord) as [order Eo].
    unfold ancestral_order. rewrite Eo.
    destruct (ancestral_order_sound _ _ _ _ Eo) as [Hp Ho].
    assert (Hnd' : NoDup (name <$> order)).
    { rewrite Hp, <- Hperm. exact Hnd. }
    destruct (fold_sample_var n itv order [] ∅ g Hnd')
      as (vals & g' & E & Hd & _ & Hs & Hpos & Hin).
    { intros x _. apply lookup_empty. }
    { exact Ho. }
    { intros p Hp'. inversion Hp'. }
    exists order, vals, g'. rewrite E. split; [reflexivity|].
    split; [exact Hp|]. split; [split; assumption|].
    split; [rewrite Hd, dom_empty_L, union_empty_l_L; reflexivity|].
    split; [exact Hs|]. split; [exact Hpos|]. exact Hin. }
  split.
  - intros Hdag. split; [|exact (main Hdag)].
    destruct (main Hdag ∅) as (order & vals & g' & E & H).
    { rewrite dom_empty_L. apply empty_subseteq. }
    exists order, vals, g'. split; [exact E|]. split; [exact E|]. exact H.
  - intros itv x Hx Hnx. unfold sample. simpl.
    destruct (decide (dom itv ⊆ names dag)) as [Hsub|_]; [|reflexivity].
    exfalso. apply Hnx. apply Hsub. exact Hx.
Qed.

(** The contract at the walkthrough's graph, its variables listed in the
    reverse of a causal order, and the intervention on C of In [8], for a
    batch of one example. *)
Lemma sample_contract_witness :
  let dag :=
    reverse (walkthrough_graph (fun _ pv _ => (foldr Nat.add 0 pv) mod 10)) in
  let itv : gmap string intervention := {[ "C" := Perfect 0 ]} in
  let g := MkRng (fun _ => 0%R) 0 in
  exists order vals g',
    sample dag 1 (Some itv) g = Ok (vals, g')
    /\ order ≡ₚ dag /\ ancestral order
    /\ batch_of 1 itv g order vals g'.
Proof.
  intros dag itv g.
  assert (Hdag : is_dag dag).
  { destruct (walkthrough_graph_is_dag
                (fun _ pv _ => (foldr Nat.add 0 pv) mod 10))
      as (order & Hp & Ha).
    exists order. split; [|exact Ha].
    unfold dag. rewrite reverse_Permutation. exact Hp. }
  apply (proj2 (proj1 (sample_contract dag 1 g) Hdag) itv).
  unfold itv, dag, names.
  rewrite dom_singleton_L. apply singleton_subseteq_l.
  apply elem_of_list_to_set. compute_done.
Defined.

End DataSourceFacts.

(** ** The derivation for arbitrary conditionals

    Every cell of the derivation notebook in closed form, for any number of
    categories: with arrays of matching lengths no cell raises, and with
    lengths that do not match the first cells raise. *)

Module ChainFacts.

Import Np Derivation NpFacts.
Import Chain.
Open Scope R_scope.

(** [Derivation] is [Chain] at the arrays of cells 2 and 3. *)
Lemma derivation_is_chain :
  Derivation.p_joint = p_joint Derivation.p_1 Derivation.p_2_1 Derivation.p_3_2
  /\ Derivation.p_2_3 = p_2_3 Derivation.p_1 Derivation.p_2_1 Derivation.p_3_2
  /\ Derivation.p_2_1_3 = p_2_1_3 Derivation.p_2_1 Derivation.p_3_2
  /\ Derivation.out_13
     = out_13 Derivation.p_1 Derivation.p_2_1 Derivation.p_3_2
         Derivation.p_interv
  /\ Derivation.out_17
     = out_17 Derivation.p_1 Derivation.p_2_1 Derivation.p_3_2
         Derivation.p_interv
  /\ Derivation.out_24
     = out_24 Derivation.p_1 Derivation.p_2_1 Derivation.p_3_2
         Derivation.p_interv
  /\ Derivation.out_27
     = out_27 Derivation.p_1 Derivation.p_2_1 Derivation.p_3_2
         Derivation.p_interv
  /\ Derivation.out_29
     = out_29 Derivation.p_1 Derivation.p_2_1 Derivation.p_3_2
         Derivation.p_interv
  /\ Derivation.out_30
     = out_30 Derivation.p_2_1 Derivation.p_3_2 Derivation.p_interv.
Proof. repeat split. Qed.

(** *** The cells in closed form *)

Ltac full_eval :=
  cbv -[Rplus Rmult Rminus Rdiv Rinv Ropp ln IZR Rlt Rle Rgt Rge Rabs pow
        sum_range].

Ltac one_eval :=
  cbv -[Rplus Rmult Rminus Rdiv Rinv Ropp ln IZR Rlt Rle Rgt Rge Rabs pow].

(** Evaluation at a symbolic number of categories [n], other than one:
    the three comparisons that broadcasting makes are decided. *)
Ltac sym_eval n Hn :=
  let E1 := fresh "E" in
  let E2 := fresh "E" in
  let E3 := fresh "E" in
  assert (E1 : (n =? 1)%nat = false) by (apply Nat.eqb_neq; exact Hn);
  assert (E2 : (1 =? n)%nat = false) by (apply Nat.eqb_neq; congruence);
  assert (E3 : (n =? n)%nat = true) by (apply Nat.eqb_refl);
  cbv in E1, E2, E3;
  full_eval;
  repeat (progress (rewrite ?E1, ?E2, ?E3; full_eval));
  clear E1 E2 E3.

Ltac zero_index :=
  repeat match goal with
         | H : (?i < 1)%nat |- _ => is_var i; destruct i; [clear H | lia]
         end.

(** A cell whose value is a number. *)
Ltac scalar_cell n :=
  let Hn := fresh "Hn" in
  destruct (Nat.eq_dec n 1%nat) as [->|Hn];
  [ one_eval; reflexivity | sym_eval n Hn; reflexivity ].

(** A cell whose value is an array: its shape and its entries. *)
Ltac array_cell n :=
  let Hn := fresh "Hn" in
  destruct (Nat.eq_dec n 1%nat) as [->|Hn];
  [ eexists; split; [one_eval; reflexivity|]; split; [reflexivity|];
    intros; zero_index; one_eval; reflexivity
  | eexists; split; [sym_eval n Hn; reflexivity|]; split; [reflexivity|];
    intros; full_eval; reflexivity ].

Section ClosedForms.

Variables (n : nat) (f1 f21 f32 fq : list nat -> R).

Local Abbreviation a1 := (Ok (NdArray [n] f1)).
Local Abbreviation a21 := (Ok (NdArray [n; n] f21)).
Local Abbreviation a32 := (Ok (NdArray [n; n] f32)).
Local Abbreviation aq := (Ok (NdArray [n] fq)).

Local Abbreviation m2 := (Chain.m2 n f1 f21).
Local Abbreviation m3 := (Chain.m3 n f1 f21 f32).
Local Abbreviation c31 := (Chain.c31 n f21 f32).

Lemma p_joint_cell :
  exists a, Chain.p_joint a1 a21 a32 = Ok a /\ shape a = [n; n; n]
    /\ forall i j k, (i < n)%nat -> (j < n)%nat -> (k < n)%nat ->
         item a [i; j; k] = f1 [i] * f21 [i; j] * f32 [j; k].
Proof. array_cell n. Qed.

Lemma p_2_cell :
  exists a, Chain.p_2 a1 a21 = Ok a /\ shape a = [n]
    /\ forall j, (j < n)%nat -> item a [j] = m2 j.
Proof. unfold Chain.m2. array_cell n. Qed.

Lemma p_3_cell :
  exists a, Chain.p_3 a1 a21 a32 = Ok a /\ shape a = [n]
    /\ forall k, (k < n)%nat -> item a [k] = m3 k.
Proof. unfold Chain.m3, Chain.m2. array_cell n. Qed.

Lemma p_2_3_cell :
  exists a, Chain.p_2_3 a1 a21 a32 = Ok a /\ shape a = [n; n]
    /\ forall k j, (k < n)%nat -> (j < n)%nat ->
         item a [k; j] = f32 [j; k] * m2 j / m3 k.
Proof. unfold Chain.m3, Chain.m2. array_cell n. Qed.

Lemma p_3_1_cell :
  exists a, Chain.p_3_1 a21 a32 = Ok a /\ shape a = [n; n]
    /\ forall i k, (i < n)%nat -> (k < n)%nat -> item a [i; k] = c31 i k.
Proof. unfold Chain.c31. array_cell n. Qed.

Lemma p_2_1_3_cell :
  exists a, Chain.p_2_1_3 a21 a32 = Ok a /\ shape a = [n; n; n]
    /\ forall i k j, (i < n)%nat -> (k < n)%nat -> (j < n)%nat ->
         item a [i; k; j] = f32 [j; k] * f21 [i; j] / c31 i k.
Proof. unfold Chain.c31. array_cell n. Qed.

Lemma p_interv_1_2_cell :
  exists a, Chain.p_interv_1_2 a21 aq = Ok a /\ shape a = [n; n]
    /\ forall i j, (i < n)%nat -> (j < n)%nat ->
         item a [i; j] = fq [i] * f21 [i; j].
Proof. array_cell n. Qed.

Lemma p_interv_1_2_3_cell :
  exists a, Chain.p_interv_1_2_3 a21 a32 aq = Ok a /\ shape a = [n; n; n]
    /\ forall i j k, (i < n)%nat -> (j < n)%nat -> (k < n)%nat ->
         item a [i; j; k] = fq [i] * f21 [i; j] * f32 [j; k].
Proof. array_cell n. Qed.

Lemma p_interv_3_1_2_cell :
  exists a, Chain.p_interv_3_1_2 a1 a21 aq = Ok a /\ shape a = [n; n; n]
    /\ forall k i j, (k < n)%nat -> (i < n)%nat -> (j < n)%nat ->
         item a [k; i; j] = fq [k] * f1 [i] * f21 [i; j].
Proof. array_cell n. Qed.

Lemma p_interv_2_3_cell :
  exists a, Chain.p_interv_2_3 a32 aq = Ok a /\ shape a = [n; n]
    /\ forall j k, (j < n)%nat -> (k < n)%nat ->
         item a [j; k] = fq [j] * f32 [j; k].
Proof. array_cell n. Qed.

Lemma p_interv_2_3_1_cell :
  exists a, Chain.p_interv_2_3_1 a1 a32 aq = Ok a /\ shape a = [n; n; n]
    /\ forall j k i, (j < n)%nat -> (k < n)%nat -> (i < n)%nat ->
         item a [j; k; i] = fq [j] * f32 [j; k] * f1 [i].
Proof. array_cell n. Qed.

Lemma p_interv_1_3_cell :
  exists a, Chain.p_interv_1_3 a21 a32 aq = Ok a /\ shape a = [n; n]
    /\ forall i k, (i < n)%nat -> (k < n)%nat ->
         item a [i; k]
         = sum_range n (fun j => fq [i] * f21 [i; j] * f32 [j; k]).
Proof. array_cell n. Qed.

Lemma out_11_cell :
  Chain.out_11 a1 a21 aq
  = Ok (sum_range n (fun i => sum_range n (fun j =>
          fq [i] * f21 [i; j] * (ln (f21 [i; j]) - ln (m2 j))))).
Proof. unfold Chain.m2. scalar_cell n. Qed.

Lemma out_13_cell :
  Chain.out_13 a1 a21 a32 aq
  = Ok (sum_range n (fun i => sum_range n (fun k => sum_range n (fun j =>
          fq [i] * f21 [i; j] * f32 [j; k]
          * (ln (f32 [j; k] * f21 [i; j] / c31 i k)
             - ln (f32 [j; k] * m2 j / m3 k)))))).
Proof. unfold Chain.m3, Chain.m2, Chain.c31. scalar_cell n. Qed.

Lemma out_15_cell :
  Chain.out_15 a1 a21 a32 aq
  = Ok (sum_range n (fun i => sum_range n (fun j => sum_range n (fun k =>
          fq [i] * f21 [i; j] * f32 [j; k]
          * (ln (f21 [i; j]) - ln (m2 j)))))).
Proof. unfold Chain.m2. scalar_cell n. Qed.

Lemma out_16_cell :
  Chain.out_16 a1 a21 aq
  = Ok (sum_range n (fun k => sum_range n (fun i => sum_range n (fun j =>
          fq [k] * f1 [i] * f21 [i; j]
          * (ln (f21 [i; j]) - ln (m2 j)))))).
Proof. unfold Chain.m2. scalar_cell n. Qed.

Lemma out_19_cell :
  Chain.out_19 a1 a21 a32 aq
  = Ok (sum_range n (fun j => sum_range n (fun k =>
          fq [j] * f32 [j; k] * (ln (f32 [j; k]) - ln (m3 k))))).
Proof. unfold Chain.m3, Chain.m2. scalar_cell n. Qed.

Lemma out_21_cell :
  Chain.out_21 a1 a21 a32 aq
  = Ok (sum_range n (fun j => sum_range n (fun i => sum_range n (fun k =>
          fq [j] * f32 [j; k] * f1 [i]
          * (ln (f32 [j; k]) - ln (c31 i k)))))).
Proof. unfold Chain.c31. scalar_cell n. Qed.

Lemma out_22_cell :
  Chain.out_22 a1 a21 a32 aq
  = Ok (sum_range n (fun i => sum_range n (fun j => sum_range n (fun k =>
          fq [i] * f21 [i; j] * f32 [j; k]
          * (ln (f32 [j; k]) - ln (m3 k)))))).
Proof. unfold Chain.m3, Chain.m2. scalar_cell n. Qed.

Lemma out_23_cell :
  Chain.out_23 a1 a21 a32 aq
  = Ok (sum_range n (fun j => sum_range n (fun k => sum_range n (fun i =>
          fq [j] * f32 [j; k] * f1 [i]
          * (ln (f32 [j; k]) - ln (m3 k)))))).
Proof. unfold Chain.m3, Chain.m2. scalar_cell n. Qed.

Lemma out_25_cell :
  Chain.out_25 a21 a32 aq
  = Ok (sum_range n (fun i => sum_range n (fun j => sum_range n (fun k =>
          fq [i] * f21 [i; j] * f32 [j; k]
          * (ln (f32 [j; k]) - ln (c31 i k)))))).
Proof. unfold Chain.c31. scalar_cell n. Qed.

Lemma out_29_cell :
  Chain.out_29 a1 a21 a32 aq
  = Ok (sum_range n (fun i => sum_range n (fun k =>
          sum_range n (fun j => fq [i] * f21 [i; j] * f32 [j; k])
          * (ln (c31 i k) - ln (m3 k))))).
Proof. unfold Chain.m3, Chain.m2, Chain.c31. scalar_cell n. Qed.

Lemma out_30_cell :
  Chain.out_30 a21 a32 aq
  = Ok (sum_range n (fun i => sum_range n (fun j => sum_range n (fun k =>
          fq [i] * f21 [i; j] * f32 [j; k]
          * (ln (f32 [j; k]) - ln (f32 [j; k])))))).
Proof. scalar_cell n. Qed.

End ClosedForms.

(** *** Arrays of matching lengths *)

Ltac open_shape a S f :=
  let s := fresh "s" in
  destruct a as [s f]; cbn [shape] in S; subst s.

(** X1: when p_1 has n entries and p_2_1 and p_3_2 are n by n, for any n,
    the cells 4 to 8 raise no error, and [p_joint] and [p_2_1_3] have shape
    (n, n, n), [p_2] and [p_3] shape (n), [p_2_3] and [p_3_1] shape
    (n, n). *)
Theorem observational_cells_run n a1 a21 a32 :
  shape a1 = [n] -> shape a21 = [n; n] -> shape a32 = [n; n] ->
  (exists a, p_joint (Ok a1) (Ok a21) (Ok a32) = Ok a
             /\ shape a = [n; n; n])
  /\ (exists a, p_2 (Ok a1) (Ok a21) = Ok a /\ shape a = [n])
  /\ (exists a, p_3 (Ok a1) (Ok a21) (Ok a32) = Ok a /\ shape a = [n])
  /\ (exists a, p_2_3 (Ok a1) (Ok a21) (Ok a32) = Ok a
                /\ shape a = [n; n])
  /\ (exists a, p_3_1 (Ok a21) (Ok a32) = Ok a /\ shape a = [n; n])
  /\ (exists a, p_2_1_3 (Ok a21) (Ok a32) = Ok a
                /\ shape a = [n; n; n]).
Proof.
  intros S1 S21 S32.
  open_shape a1 S1 f1. open_shape a21 S21 f21. open_shape a32 S32 f32.
  split; [destruct (p_joint_cell n f1 f21 f32) as (a & E & S & _); eauto|].
  split; [destruct (p_2_cell n f1 f21) as (a & E & S & _); eauto|].
  split; [destruct (p_3_cell n f1 f21 f32) as (a & E & S & _); eauto|].
  split; [destruct (p_2_3_cell n f1 f21 f32) as (a & E & S & _); eauto|].
  split; [destruct (p_3_1_cell n f21 f32) as (a & E & S & _); eauto|].
  destruct (p_2_1_3_cell n f21 f32) as (a & E & S & _); eauto.
Qed.

Lemma observational_cells_run_witness :
  (exists a, Derivation.p_joint = Ok a /\ shape a = [2; 2; 2]%nat)
  /\ (exists a, Derivation.p_2 = Ok a /\ shape a = [2%nat])
  /\ (exists a, Derivation.p_3 = Ok a /\ shape a = [2%nat])
  /\ (exists a, Derivation.p_2_3 = Ok a /\ shape a = [2; 2]%nat)
  /\ (exists a, Derivation.p_3_1 = Ok a /\ shape a = [2; 2]%nat)
  /\ (exists a, Derivation.p_2_1_3 = Ok a /\ shape a = [2; 2; 2]%nat).
Proof.
  exact (observational_cells_run 2 (value Derivation.p_1)
           (value Derivation.p_2_1) (value Derivation.p_3_2)
           eq_refl eq_refl eq_refl).
Defined.

(** X6: with [p_interv] of n entries besides, the interventional joints of
    cells 10, 12, 14, 18, 20 and 28 raise no error, and have shape (n, n)
    for the pairs and (n, n, n) for the triples. *)
Theorem interventional_cells_run n a1 a21 a32 aq :
  shape a1 = [n] -> shape a21 = [n; n] -> shape a32 = [n; n] ->
  shape aq = [n] ->
  (exists a, p_interv_1_2 (Ok a21) (Ok aq) = Ok a /\ shape a = [n; n])
  /\ (exists a, p_interv_1_2_3 (Ok a21) (Ok a32) (Ok aq) = Ok a
                /\ shape a = [n; n; n])
  /\ (exists a, p_interv_3_1_2 (Ok a1) (Ok a21) (Ok aq) = Ok a
                /\ shape a = [n; n; n])
  /\ (exists a, p_interv_2_3 (Ok a32) (Ok aq) = Ok a /\ shape a = [n; n])
  /\ (exists a, p_interv_2_3_1 (Ok a1) (Ok a32) (Ok aq) = Ok a
                /\ shape a = [n; n; n])
  /\ (exists a, p_interv_1_3 (Ok a21) (Ok a32) (Ok aq) = Ok a
                /\ shape a = [n; n]).
Proof.
  intros S1 S21 S32 Sq.
  open_shape a1 S1 f1. open_shape a21 S21 f21. open_shape a32 S32 f32.
  open_shape aq Sq fq.
  split; [destruct (p_interv_1_2_cell n f21 fq) as (a & E & S & _); eauto|].
  split; [destruct (p_interv_1_2_3_cell n f21 f32 fq) as (a & E & S & _);
          eauto|].
  split; [destruct (p_interv_3_1_2_cell n f1 f21 fq) as (a & E & S & _);
          eauto|].
  split; [destruct (p_interv_2_3_cell n f32 fq) as (a & E & S & _); eauto|].
  split; [destruct (p_interv_2_3_1_cell n f1 f32 fq) as (a & E & S & _);
          eauto|].
  destruct (p_interv_1_3_cell n f21 f32 fq) as (a & E & S & _); eauto.
Qed.

Lemma interventional_cells_run_witness :
  (exists a, Derivation.p_interv_1_2 = Ok a /\ shape a = [2; 2]%nat)
  /\ (exists a, Derivation.p_interv_1_2_3 = Ok a
                /\ shape a = [2; 2; 2]%nat)
  /\ (exists a, Derivation.p_interv_3_1_2 = Ok a
                /\ shape a = [2; 2; 2]%nat)
  /\ (exists a, Derivation.p_interv_2_3 = Ok a /\ shape a = [2; 2]%nat)
  /\ (exists a, Derivation.p_interv_2_3_1 = Ok a
                /\ shape a = [2; 2; 2]%nat)
  /\ (exists a, Derivation.p_interv_1_3 = Ok a /\ shape a = [2; 2]%nat).
Proof.
  exact (interventional_cells_run 2 (value Derivation.p_1)
           (value Derivation.p_2_1) (value Derivation.p_3_2)
           (value Derivation.p_interv) eq_refl eq_refl eq_refl eq_refl).
Defined.

(** X7: with arrays of these shapes, for any n, every call of
    [expect_diff] in the notebook (cells 11, 13, 15, 16, 17, 19, 21,
    22, 23, 24, 25, 27, 29 and 30), transposed and broadcast operands
    included, returns and raises no error. *)
Theorem contrast_cells_run n a1 a21 a32 aq :
  shape a1 = [n] -> shape a21 = [n; n] -> shape a32 = [n; n] ->
  shape aq = [n] ->
  Forall (fun c : res R => exists x, c = Ok x)
    [out_11 (Ok a1) (Ok a21) (Ok aq);
     out_13 (Ok a1) (Ok a21) (Ok a32) (Ok aq);
     out_15 (Ok a1) (Ok a21) (Ok a32) (Ok aq);
     out_16 (Ok a1) (Ok a21) (Ok aq);
     out_17 (Ok a1) (Ok a21) (Ok a32) (Ok aq);
     out_19 (Ok a1) (Ok a21) (Ok a32) (Ok aq);
     out_21 (Ok a1) (Ok a21) (Ok a32) (Ok aq);
     out_22 (Ok a1) (Ok a21) (Ok a32) (Ok aq);
     out_23 (Ok a1) (Ok a21) (Ok a32) (Ok aq);
     out_24 (Ok a1) (Ok a21) (Ok a32) (Ok aq);
     out_25 (Ok a21) (Ok a32) (Ok aq);
     out_27 (Ok a1) (Ok a21) (Ok a32) (Ok aq);
     out_29 (Ok a1) (Ok a21) (Ok a32) (Ok aq);
     out_30 (Ok a21) (Ok a32) (Ok aq)].
Proof.
  intros S1 S21 S32 Sq.
  open_shape a1 S1 f1. open_shape a21 S21 f21. open_shape a32 S32 f32.
  open_shape aq Sq fq.
  unfold out_17, out_24, out_27.
  rewrite out_11_cell, out_13_cell, out_15_cell, out_16_cell, out_19_cell,
    out_21_cell, out_22_cell, out_23_cell, out_25_cell, out_29_cell,
    out_30_cell.
  repeat constructor; eexists; reflexivity.
Qed.

Lemma contrast_cells_run_witness :
  Forall (fun c : res R => exists x, c = Ok x)
    [Derivation.out_11; Derivation.out_13; Derivation.out_15;
     Derivation.out_16; Derivation.out_17; Derivation.out_19;
     Derivation.out_21; Derivation.out_22; Derivation.out_23;
     Derivation.out_24; Derivation.out_25; Derivation.out_27;
     Derivation.out_29; Derivation.out_30].
Proof.
  exact (contrast_cells_run 2 (value Derivation.p_1)
           (value Derivation.p_2_1) (value Derivation.p_3_2)
           (value Derivation.p_interv) eq_refl eq_refl eq_refl eq_refl).
Defined.

(** *** A conditional against itself *)







(** *** Arrays of lengths that do not match *)



End ChainFacts.

(** ** The expected difference over binary64 numbers *)

Module Binary64Facts.

Import Np NpFacts Binary64.
Import SpecFloat FloatOps FloatAxioms.
Open Scope nat_scope.

(** *** Signs in the binary64 operations *)

Section Signs.

Variables prec emax : Z.

Lemma same_refl x : same x x.
Proof. left. reflexivity. Qed.

Lemma same_sym x y : same x y -> same y x.
Proof.
  intros [->|(s & s' & -> & ->)]; [left; reflexivity | right; eauto].
Qed.

Lemma same_trans x y z : same x y -> same y z -> same x z.
Proof.
  intros [->|(s & s' & -> & ->)] [E|(t & t' & E1 & E2)]; subst.
  - left. reflexivity.
  - right. eauto.
  - right. eauto.
  - right. eauto.
Qed.

Lemma same_opp x y : same x y -> same (SFopp x) (SFopp y).
Proof.
  intros [->|(s & s' & -> & ->)]; [left; reflexivity | right; simpl; eauto].
Qed.

Lemma binary_round_aux_opp s m e l :
  binary_round_aux prec emax (negb s) m e l
  = SFopp (binary_round_aux prec emax s m e l).
Proof.
  unfold binary_round_aux.
  destruct (shr_fexp prec emax m e l) as [mrs' e'].
  destruct (shr_fexp prec emax _ e' loc_Exact) as [mrs'' e''].
  destruct (shr_m mrs''); [reflexivity| |reflexivity].
  destruct (Z.leb e'' (emax - prec)); reflexivity.
Qed.

Lemma binary_round_opp s m e :
  binary_round prec emax (negb s) m e = SFopp (binary_round prec emax s m e).
Proof.
  unfold binary_round.
  destruct (shl_align m e _) as [mz ez]. apply binary_round_aux_opp.
Qed.

Lemma binary_normalize_opp m e :
  same (binary_normalize prec emax (- m) e false)
       (SFopp (binary_normalize prec emax m e false)).
Proof.
  destruct m as [|p|p]; simpl.
  - right. eauto.
  - left. apply (binary_round_opp false).
  - left. apply (binary_round_opp true).
Qed.

Lemma SFmul_opp_r x y :
  SFmul prec emax x (SFopp y) = SFopp (SFmul prec emax x y).
Proof.
  destruct x as [sx|sx| |sx mx ex], y as [sy|sy| |sy my ey]; simpl;
    try reflexivity; try (destruct sx, sy; reflexivity).
  replace (xorb sx (negb sy)) with (negb (xorb sx sy))
    by (destruct sx, sy; reflexivity).
  apply binary_round_aux_opp.
Qed.

Lemma SFmul_same x x' y y' :
  same x x' -> same y y' ->
  same (SFmul prec emax x y) (SFmul prec emax x' y').
Proof.
  intros [->|(s & s' & -> & ->)] [->|(t & t' & -> & ->)].
  - left. reflexivity.
  - destruct x' as [sx|sx| |sx mx ex]; simpl;
      try (left; reflexivity); right; eauto.
  - destruct y' as [sy|sy| |sy my ey]; simpl;
      try (left; reflexivity); right; eauto.
  - simpl. right. eauto.
Qed.

Lemma SFadd_same x x' y y' :
  same x x' -> same y y' ->
  same (SFadd prec emax x y) (SFadd prec emax x' y').
Proof.
  intros [->|(s & s' & -> & ->)] [->|(t & t' & -> & ->)].
  - left. reflexivity.
  - destruct x' as [sx|sx| |sx mx ex]; simpl; try (left; reflexivity).
    destruct sx, t, t'; simpl; right; eauto.
  - destruct y' as [sy|sy| |sy my ey]; simpl; try (left; reflexivity).
    destruct s, s', sy; simpl; right; eauto.
  - destruct s, s', t, t'; simpl; right; eauto.
Qed.

Lemma SFadd_opp x y :
  same (SFadd prec emax (SFopp x) (SFopp y))
       (SFopp (SFadd prec emax x y)).
Proof.
  destruct x as [sx|sx| |sx mx ex], y as [sy|sy| |sy my ey]; simpl;
    try (left; reflexivity).
  - destruct sx, sy; simpl; (left; reflexivity) || (right; eauto).
  - destruct sx, sy; simpl; left; reflexivity.
  - replace (cond_Zopp (negb sx) (Z.pos (fst (shl_align mx ex (Z.min ex ey))))
             + cond_Zopp (negb sy) (Z.pos (fst (shl_align my ey (Z.min ex ey)))))%Z
      with (- (cond_Zopp sx (Z.pos (fst (shl_align mx ex (Z.min ex ey))))
               + cond_Zopp sy (Z.pos (fst (shl_align my ey (Z.min ex ey))))))%Z
      by (destruct sx, sy; unfold cond_Zopp, negb; ring).
    apply binary_normalize_opp.
Qed.

Lemma SFsub_swap x y :
  same (SFsub prec emax y x) (SFopp (SFsub prec emax x y)).
Proof.
  destruct x as [sx|sx| |sx mx ex], y as [sy|sy| |sy my ey]; simpl;
    try (left; reflexivity);
    try (rewrite negb_involutive; left; reflexivity);
    try (destruct sx, sy; simpl;
         first [left; reflexivity | right; eauto]; fail).
  assert (E : Z.min ey ex = Z.min ex ey) by apply Z.min_comm.
  rewrite E.
  replace (cond_Zopp sy (Z.pos (fst (shl_align my ey (Z.min ex ey))))
           - cond_Zopp sx (Z.pos (fst (shl_align mx ex (Z.min ex ey)))))%Z
    with (- (cond_Zopp sx (Z.pos (fst (shl_align mx ex (Z.min ex ey))))
             - cond_Zopp sy (Z.pos (fst (shl_align my ey (Z.min ex ey))))))%Z
    by ring.
  apply binary_normalize_opp.
Qed.

Lemma SFsub_diag x : SFfinite x = true -> SFsub prec emax x x = S754_zero false.
Proof.
  destruct x as [s|s| |s m e]; simpl; try discriminate; intros _.
  - destruct s; reflexivity.
  - rewrite Z.sub_diag. reflexivity.
Qed.

Lemma SFmul_zero_r x z :
  SFfinite x = true -> SFzero z = true -> SFzero (SFmul prec emax x z) = true.
Proof.
  destruct x as [s|s| |s m e], z as [t|t| |t m' e']; simpl;
    try discriminate; reflexivity.
Qed.

Lemma SFadd_zero x y :
  SFzero x = true -> SFzero y = true -> SFzero (SFadd prec emax x y) = true.
Proof.
  destruct x as [s|s| |s m e], y as [t|t| |t m' e']; simpl;
    try discriminate; intros _ _.
  destruct s, t; reflexivity.
Qed.

(** Whatever [x] is, [inf * (x - x)] is not a number. *)
Lemma SFmul_inf_sub_diag x s :
  SFmul prec emax (S754_infinity s) (SFsub prec emax x x) = S754_nan.
Proof.
  destruct x as [t|t| |t m e]; simpl.
  - destruct t; reflexivity.
  - destruct t; reflexivity.
  - reflexivity.
  - rewrite Z.sub_diag. reflexivity.
Qed.

End Signs.

Lemma SFeqb_same x y :
  same x y -> SFeqb x x = true -> SFeqb x y = true.
Proof.
  intros [->|(s & s' & -> & ->)] H; [exact H | reflexivity].
Qed.

Lemma SFeqb_opp x : SFeqb x x = true -> SFeqb (SFopp x) (SFopp x) = true.
Proof.
  destruct x as [s|s| |s m e]; simpl; try discriminate; intros _.
  - reflexivity.
  - destruct s; reflexivity.
  - unfold SFeqb, SFcompare. simpl.
    rewrite Z.compare_refl, Pos.compare_cont_refl. destruct s; reflexivity.
Qed.

(** *** The primitive operations *)

Lemma is_nan_spec x :
  PrimFloat.is_nan x = true <-> Prim2SF x = S754_nan.
Proof.
  unfold PrimFloat.is_nan. rewrite eqb_spec.
  destruct (Prim2SF x) as [s|s| |s m e]; simpl; split;
    try reflexivity; try discriminate.
  - destruct s; discriminate.
  - unfold SFeqb, SFcompare. simpl.
    rewrite Z.compare_refl, Pos.compare_cont_refl. destruct s; discriminate.
Qed.

Lemma not_nan_spec x :
  PrimFloat.is_nan x = false -> SFeqb (Prim2SF x) (Prim2SF x) = true.
Proof.
  unfold PrimFloat.is_nan. rewrite eqb_spec.
  destruct (SFeqb _ _); [reflexivity | discriminate].
Qed.

Lemma is_finite_spec x :
  PrimFloat.is_finite x = true -> SFfinite (Prim2SF x) = true.
Proof.
  unfold PrimFloat.is_finite, PrimFloat.is_nan, PrimFloat.is_infinity.
  rewrite !eqb_spec, abs_spec.
  change (Prim2SF PrimFloat.infinity) with (S754_infinity false).
  destruct (Prim2SF x) as [s|s| |s m e]; simpl; try reflexivity;
    try discriminate.
  destruct s; discriminate.
Qed.

Lemma is_zero_spec x :
  SFzero (Prim2SF x) = true -> PrimFloat.eqb x PrimFloat.zero = true.
Proof.
  rewrite eqb_spec.
  change (Prim2SF PrimFloat.zero) with (S754_zero false).
  destruct (Prim2SF x); simpl; try discriminate. reflexivity.
Qed.

Lemma same64_eqb_opp w v :
  same64 w (PrimFloat.opp v) -> PrimFloat.is_nan v = false ->
  PrimFloat.eqb w (PrimFloat.opp v) = true.
Proof.
  unfold same64. intros H Hv. apply not_nan_spec in Hv.
  rewrite eqb_spec. rewrite opp_spec in *.
  destruct H as [->|(s & s' & -> & ->)]; [|reflexivity].
  apply SFeqb_opp. exact Hv.
Qed.

Lemma term_swap j x y :
  same64 (PrimFloat.mul j (PrimFloat.sub y x))
         (PrimFloat.opp (PrimFloat.mul j (PrimFloat.sub x y))).
Proof.
  unfold same64. rewrite opp_spec, !mul_spec, !sub_spec.
  unfold SF64mul, SF64sub. rewrite <- SFmul_opp_r.
  apply SFmul_same; [apply same_refl | apply SFsub_swap].
Qed.

Lemma term_diag j x :
  PrimFloat.is_finite j = true -> PrimFloat.is_finite x = true ->
  SFzero (Prim2SF (PrimFloat.mul j (PrimFloat.sub x x))) = true.
Proof.
  intros Hj Hx. apply is_finite_spec in Hj, Hx.
  rewrite mul_spec, sub_spec. unfold SF64mul, SF64sub.
  rewrite SFsub_diag by exact Hx. apply SFmul_zero_r; [exact Hj | reflexivity].
Qed.

Lemma term_inf_diag x :
  PrimFloat.is_nan (PrimFloat.mul PrimFloat.infinity (PrimFloat.sub x x))
  = true.
Proof.
  apply is_nan_spec. rewrite mul_spec, sub_spec.
  change (Prim2SF PrimFloat.infinity) with (S754_infinity false).
  apply SFmul_inf_sub_diag.
Qed.

(** *** Sums along a schedule *)

Lemma sum64_swap o (m m' : ndarray64) :
  (forall idx, same64 (item64 m' idx) (PrimFloat.opp (item64 m idx))) ->
  same64 (sum64 o m') (PrimFloat.opp (sum64 o m)).
Proof.
  intros H. induction o as [idx|negative|l IHl r IHr]; simpl.
  - apply H.
  - unfold same64. rewrite opp_spec. right.
    destruct negative; simpl; eauto.
  - unfold same64 in *. rewrite opp_spec in *. rewrite !add_spec.
    unfold SF64add.
    eapply same_trans; [apply SFadd_same; [exact IHl | exact IHr]|].
    apply SFadd_opp.
Qed.

Lemma sum64_zero s o (m : ndarray64) :
  within s o ->
  (forall idx, In_shape s idx -> SFzero (Prim2SF (item64 m idx)) = true) ->
  SFzero (Prim2SF (sum64 o m)) = true.
Proof.
  intros Ho H. induction o as [idx|negative|l IHl r IHr]; simpl in *.
  - apply H. exact Ho.
  - destruct negative; reflexivity.
  - destruct Ho as [Hl Hr]. rewrite add_spec. unfold SF64add.
    apply SFadd_zero; auto.
Qed.

Lemma SFadd_nan_l x : SFadd prec emax S754_nan x = S754_nan.
Proof. reflexivity. Qed.

Lemma SFadd_nan_r x : SFadd prec emax x S754_nan = S754_nan.
Proof. destruct x; reflexivity. Qed.

(** A schedule that adds an entry that is not a number returns no
    number. *)
Lemma sum64_nan o (m : ndarray64) idx :
  Prim2SF (item64 m idx) = S754_nan -> (1 <= visits o idx)%nat ->
  Prim2SF (sum64 o m) = S754_nan.
Proof.
  intros H. induction o as [i|negative|l IHl r IHr]; simpl; intros Hv.
  - destruct (decide (i = idx)) as [->|]; [exact H | lia].
  - lia.
  - rewrite add_spec. unfold SF64add.
    destruct (Nat.eq_dec (visits l idx) 0) as [E|E].
    + rewrite IHr by lia. apply SFadd_nan_r.
    + rewrite IHl by lia. apply SFadd_nan_l.
Qed.

(** A schedule over two entries that are the two infinities. *)
Lemma sum64_infinities o (m : ndarray64) s :
  Prim2SF (item64 m [0%nat]) = S754_infinity s ->
  Prim2SF (item64 m [1%nat]) = S754_infinity (negb s) ->
  within [2%nat] o ->
  Prim2SF (sum64 o m)
  = match visits o [0%nat], visits o [1%nat] with
    | O, O => Prim2SF (sum64 o m)
    | S _, O => S754_infinity s
    | O, S _ => S754_infinity (negb s)
    | S _, S _ => S754_nan
    end
  /\ (visits o [0%nat] = 0%nat -> visits o [1%nat] = 0%nat ->
      SFzero (Prim2SF (sum64 o m)) = true).
Proof.
  intros H0 H1. induction o as [i|negative|l IHl r IHr]; simpl; intros Ho.
  - destruct i as [|i [|? ?]]; simpl in Ho; try tauto.
    destruct Ho as [Hi _].
    destruct i as [|[|i]]; [| |lia].
    + rewrite decide_True by reflexivity.
      rewrite decide_False by discriminate.
      split; [exact H0 | discriminate].
    + rewrite decide_False by discriminate.
      rewrite decide_True by reflexivity.
      split; [exact H1 | discriminate].
  - split; [reflexivity|]. intros _ _. destruct negative; reflexivity.
  - destruct Ho as [Hl Hr].
    destruct (IHl Hl) as [El Zl]. destruct (IHr Hr) as [Er Zr].
    rewrite add_spec. unfold SF64add.
    destruct (visits l [0%nat]) as [|a0], (visits l [1%nat]) as [|a1],
      (visits r [0%nat]) as [|b0], (visits r [1%nat]) as [|b1]; simpl;
      try (specialize (Zl eq_refl eq_refl));
      try (specialize (Zr eq_refl eq_refl));
      try rewrite El; try rewrite Er;
      try (split; [reflexivity | intros; try discriminate;
                                  apply SFadd_zero; assumption]);
      try (split; [|intros; discriminate]);
      try (destruct (Prim2SF (sum64 l m)); try discriminate;
           destruct s; reflexivity);
      try (destruct (Prim2SF (sum64 r m)); try discriminate;
           destruct s; reflexivity);
      try (destruct s; reflexivity);
      try (destruct (Prim2SF (sum64 l m)); reflexivity).
Qed.

(** *** Broadcasting keeps indices inside the shapes *)

Lemma clamp_in_shape x : forall y t idx,
  bc_dims x y = Ok t -> In_shape t idx -> In_shape x (clamp x idx).
Proof.
  induction x as [|a x IH]; intros [|b y] t idx H Hidx; simpl in H;
    try discriminate.
  - inversion H; subst. destruct idx; simpl in *; tauto.
  - destruct (bc_dim a b) as [d|] eqn:Ed; [|discriminate]. simpl in H.
    destruct (bc_dims x y) as [t'|] eqn:Et; [|discriminate]. simpl in H.
    inversion H; subst. destruct idx as [|i idx]; simpl in Hidx; [tauto|].
    destruct Hidx as [Hi Hidx]. simpl. split; [|eapply IH; eauto].
    unfold bc_dim in Ed.
    destruct (Nat.eqb_spec a 1) as [->|Ha]; [lia|].
    destruct (Nat.eqb_spec a b) as [->|Hab];
      [inversion Ed; subst; exact Hi|].
    destruct (Nat.eqb_spec b 1); [|discriminate].
    inversion Ed; subst; exact Hi.
Qed.

Lemma clamp_skipn_in_shape k : forall x y t idx,
  bc_dims (repeat 1%nat k ++ x) y = Ok t -> In_shape t idx ->
  In_shape x (clamp x (skipn k idx)).
Proof.
  induction k as [|k IH]; intros x y t idx H Hidx.
  - simpl in *. eapply clamp_in_shape; eauto.
  - destruct y as [|b y]; simpl in H; [discriminate|].
    destruct (bc_dim 1 b) as [d|]; [|discriminate]. simpl in H.
    destruct (bc_dims (repeat 1%nat k ++ x) y) as [t'|] eqn:Et;
      [|discriminate].
    simpl in H. inversion H; subst.
    destruct idx as [|i idx]; simpl in Hidx; [tauto|].
    destruct Hidx as [_ Hidx]. simpl. eapply IH; eauto.
Qed.

Lemma bindex_in_shape_l x y t idx :
  broadcast_shapes x y = Ok t -> In_shape t idx ->
  In_shape x (bindex x idx).
Proof.
  unfold broadcast_shapes, bindex. intros H Hidx.
  set (r := Nat.max (length x) (length y)) in *.
  destruct (bc_dims_length _ _ _ H) as [_ Ht].
  rewrite pad_length in Ht by lia.
  rewrite (In_shape_length _ _ Hidx), Ht.
  unfold pad in H. eapply clamp_skipn_in_shape; eauto.
Qed.

Lemma bindex_in_shape_r x y t idx :
  broadcast_shapes x y = Ok t -> In_shape t idx ->
  In_shape y (bindex y idx).
Proof.
  rewrite broadcast_shapes_comm. apply bindex_in_shape_l.
Qed.

(** *** The expected difference *)

Lemma expect_diff64_eq log o j a b s t :
  broadcast_shapes (shape64 a) (shape64 b) = Ok s ->
  broadcast_shapes (shape64 j) s = Ok t ->
  expect_diff64 log o j a b
  = Ok (sum64 o (NdArray64 t (fun idx =>
          PrimFloat.mul (item64 j (bindex (shape64 j) idx))
            (PrimFloat.sub
               (log (item64 a (bindex (shape64 a) (bindex s idx))))
               (log (item64 b (bindex (shape64 b) (bindex s idx)))))))).
Proof.
  intros H1 H2. unfold expect_diff64, map2_64, log64. simpl.
  rewrite H1. simpl. rewrite H2. reflexivity.
Qed.

(** C9, as stated, fails for the binary64 numbers the code computes with.
    A weight that is infinite, which is not negative, makes the contrast of
    a strictly positive array with itself no number at all, whatever
    [np.log] returns and in whatever order the entries are added.  And
    with the finite weights [1e308, 1e308], the arrays
    [a = [0.9, 0.1]] and [b = [0.1, 0.9]], and the values of the logarithm
    at 0.9 and 0.1, the products overflow to the two infinities and both
    calls return no number, so neither is the negation of the other. *)
Lemma expect_diff64_not_a_number :
  (let j := array64 [PrimFloat.infinity] in
   let a := array64 [1%binary64] in
   PrimFloat.leb 0%binary64 PrimFloat.infinity = true
   /\ PrimFloat.ltb 0%binary64 1%binary64 = true
   /\ forall log o, sums [1] o ->
        exists v, expect_diff64 log o j a a = Ok v
                  /\ PrimFloat.is_nan v = true
                  /\ PrimFloat.eqb v 0%binary64 = false)
  /\ (let j := array64 [1e308%binary64; 1e308%binary64] in
      let a := array64 [0.9%binary64; 0.1%binary64] in
      let b := array64 [0.1%binary64; 0.9%binary64] in
      forall log o, sums [2] o ->
        log 0.9%binary64 = (-0.10536051565782628)%binary64 ->
        log 0.1%binary64 = (-2.3025850929940455)%binary64 ->
        exists v w,
          expect_diff64 log o j a b = Ok v
          /\ expect_diff64 log o j b a = Ok w
          /\ PrimFloat.is_nan v = true /\ PrimFloat.is_nan w = true
          /\ PrimFloat.eqb w (PrimFloat.opp v) = false).
Proof.
  split.
  - intros j a. split; [reflexivity|]. split; [reflexivity|].
    intros log o [_ Ho].
    rewrite (expect_diff64_eq log o j a a [1] [1] eq_refl eq_refl).
    eexists. split; [reflexivity|].
    assert (N : Prim2SF (sum64 o (NdArray64 [1] (fun idx =>
                  PrimFloat.mul (item64 j (bindex (shape64 j) idx))
                    (PrimFloat.sub
                       (log (item64 a (bindex (shape64 a) (bindex [1] idx))))
                       (log (item64 a
                               (bindex (shape64 a) (bindex [1] idx))))))))
                = S754_nan).
    { apply (sum64_nan o _ [0]).
      - apply is_nan_spec. cbn. apply term_inf_diag.
      - rewrite (Ho [0]); [lia|]. simpl. lia. }
    split; [apply is_nan_spec; exact N|].
    rewrite eqb_spec, N. reflexivity.
  - intros j a b log o [Hw Ho] L9 L1.
    rewrite (expect_diff64_eq log o j a b [2] [2] eq_refl eq_refl).
    rewrite (expect_diff64_eq log o j b a [2] [2] eq_refl eq_refl).
    eexists. eexists. split; [reflexivity|]. split; [reflexivity|].
    assert (V0 : visits o [0] = 1) by (apply Ho; simpl; lia).
    assert (V1 : visits o [1] = 1) by (apply Ho; simpl; lia).
    match goal with
    | |- PrimFloat.is_nan (sum64 o ?m1) = true
         /\ PrimFloat.is_nan (sum64 o ?m2) = true /\ _ =>
        assert (N1 : Prim2SF (sum64 o m1) = S754_nan);
        [ destruct (sum64_infinities o m1 false) as [E _];
          [ cbn; rewrite L9, L1; reflexivity
          | cbn; rewrite L9, L1; reflexivity
          | exact Hw
          | rewrite V0, V1 in E; exact E ]
        | assert (N2 : Prim2SF (sum64 o m2) = S754_nan);
          [ destruct (sum64_infinities o m2 true) as [E _];
            [ cbn; rewrite L9, L1; reflexivity
            | cbn; rewrite L9, L1; reflexivity
            | exact Hw
            | rewrite V0, V1 in E; exact E ]
          | ] ]
    end.
    split; [apply is_nan_spec; exact N1|].
    split; [apply is_nan_spec; exact N2|].
    rewrite eqb_spec, N2. reflexivity.
Qed.

(** C9, amended: over binary64 numbers, for every logarithm and every
    order of summation, the same order in the two calls that are compared.
    When the shapes broadcast, [expect_diff j a b] and [expect_diff j b a]
    both return, and the second equals the negation of the first whenever
    the first is a number; and [expect_diff j a a] equals 0 whenever the
    entries of [j] and of [log a] are all finite.  Neither statement needs
    [j] to be nonnegative or [a] and [b] to be positive. *)
Theorem expect_diff64_antisymmetric :
  (forall log o j a t,
      broadcast_shapes (shape64 j) (shape64 a) = Ok t -> sums t o ->
      (forall idx, In_shape (shape64 j) idx ->
                   PrimFloat.is_finite (item64 j idx) = true) ->
      (forall idx, In_shape (shape64 a) idx ->
                   PrimFloat.is_finite (log (item64 a idx)) = true) ->
      exists z, expect_diff64 log o j a a = Ok z
                /\ PrimFloat.eqb z 0%binary64 = true)
  /\ (forall log o j a b s t,
        broadcast_shapes (shape64 a) (shape64 b) = Ok s ->
        broadcast_shapes (shape64 j) s = Ok t -> sums t o ->
        exists v w,
          expect_diff64 log o j a b = Ok v
          /\ expect_diff64 log o j b a = Ok w
          /\ (PrimFloat.is_nan v = false ->
              PrimFloat.eqb w (PrimFloat.opp v) = true)).
Proof.
  split.
  - intros log o j a t Ht [Hw _] Hj Ha.
    rewrite (expect_diff64_eq log o j a a (shape64 a) t
               (broadcast_shapes_self _) Ht).
    eexists. split; [reflexivity|]. apply is_zero_spec.
    apply (sum64_zero t); [exact Hw|].
    intros idx Hidx. cbn [item64].
    apply term_diag.
    + apply Hj. eapply bindex_in_shape_l; eauto.
    + apply Ha.
      eapply (bindex_in_shape_l _ _ _ _ (broadcast_shapes_self _)).
      eapply bindex_in_shape_r; eauto.
  - intros log o j a b s t H1 H2 _.
    rewrite (expect_diff64_eq log o j a b s t H1 H2).
    rewrite broadcast_shapes_comm in H1.
    rewrite (expect_diff64_eq log o j b a s t H1 H2).
    eexists. eexists. split; [reflexivity|]. split; [reflexivity|].
    intros Hv. apply same64_eqb_opp; [|exact Hv].
    apply sum64_swap. intros idx. cbn [item64]. apply term_swap.
Qed.

(** The two statements at the weights of cell 3, a row of p(X_2|X_1) and
    the marginal p(X_2), added from a zero in index order. *)
Lemma expect_diff64_antisymmetric_witness :
  let j := array64 [0.5%binary64; 0.5%binary64] in
  let a := array64 [0.6%binary64; 0.4%binary64] in
  let b := array64 [0.46%binary64; 0.54%binary64] in
  let o := Plus (Plus (Zero false) (Elt [0])) (Elt [1]) in
  sums [2] o
  /\ (forall log,
        (forall idx, In_shape [2] idx ->
                     PrimFloat.is_finite (log (item64 a idx)) = true) ->
        exists z, expect_diff64 log o j a a = Ok z
                  /\ PrimFloat.eqb z 0%binary64 = true)
  /\ (forall log,
        exists v w,
          expect_diff64 log o j a b = Ok v
          /\ expect_diff64 log o j b a = Ok w
          /\ (PrimFloat.is_nan v = false ->
              PrimFloat.eqb w (PrimFloat.opp v) = true)).
Proof.
  intros j a b o.
  assert (Ho : sums [2] o).
  { split; [simpl; lia|].
    intros [|i [|? ?]]; simpl; try tauto. intros [Hi _].
    destruct i as [|[|i]]; [reflexivity | reflexivity | lia]. }
  split; [exact Ho|]. split.
  - intros log Ha.
    apply (proj1 expect_diff64_antisymmetric log o j a [2] eq_refl Ho);
      [|exact Ha].
    intros [|i [|? ?]]; simpl; try tauto. intros [Hi _].
    destruct i as [|[|i]]; [reflexivity | reflexivity | lia].
  - intros log.
    exact (proj2 expect_diff64_antisymmetric log o j a b [2] [2]
             eq_refl eq_refl Ho).
Defined.

End Binary64Facts.
